(** * Guitar tuner (src/App.js): pitch classification, smoothing,
      acquisition loop, session teardown and reference-tone player.

    The numeric path of the program is modelled twice.

    The component as a whole (state, loop, teardown, tone player) is
    modelled with exact rationals ([Q]) for JavaScript numbers: that
    model says what the arithmetic written in the program means when no
    operation rounds.  There [Infinity], which the source has only as
    the initial value of [minDiff], is [None] in an [option Q], and the
    cents, [Math.floor(1200 * Math.log2(q))], are computed exactly on
    integers and proved to be the floor of the real-valued expression.

    The module [Binary64] has the numeric path again (the table, the
    search for the closest note, the cents, the smoothing) on IEEE 754
    binary64, the numbers JavaScript runs on: the statements about what
    the program computes on a given number are made there. *)

From Stdlib Require Import ZArith QArith Qabs List String Bool Lia.
From Stdlib Require Import DecimalString.
From Stdlib Require Import Reals Qreals Qpower Psatz.
From Stdlib Require Import PrimFloat Uint63 FloatOps FloatAxioms SpecFloat.
From Bignums Require Import BigZ.
Import ListNotations.

Local Open Scope Z_scope.
Local Open Scope Q_scope.
Local Open Scope string_scope.
Local Open Scope list_scope.

(** ** The fixed table of open-string pitches *)

(** The keys of the object literal [TUNING_FREQUENCIES]; the object is
    a constant, never written after its definition. *)
Inductive PitchClass : Type := E2 | A2 | D3 | G3 | B3 | E4.

(** [TUNING_FREQUENCIES[note]], each literal read as the decimal
    fraction it writes. *)
Definition TUNING_FREQUENCIES (note : PitchClass) : Q :=
  match note with
  | E2 => 82.41
  | A2 => 110.00
  | D3 => 146.83
  | G3 => 196.00
  | B3 => 246.94
  | E4 => 329.63
  end.

(** [Object.keys(TUNING_FREQUENCIES)]: string keys come out in insertion
    order. *)
Definition Object_keys : list PitchClass := [E2; A2; D3; G3; B3; E4].

(** The key as the string the program displays. *)
Definition key_string (note : PitchClass) : string :=
  match note with
  | E2 => "E2" | A2 => "A2" | D3 => "D3"
  | G3 => "G3" | B3 => "B3" | E4 => "E4"
  end.

(** ** [Math.floor(k * Math.log2(x))] on positive rationals, without
    rounding

    The logarithm is irrational, so the composite is computed exactly on
    integers: with [x = a / b], the result is the [c] such that
    [2^c * b^k <= a^k < 2^(c+1) * b^k]. *)

(** [2^c * B <= A], for an exponent of either sign. *)
Definition pow2_mul_le (c A B : Z) : bool :=
  if (0 <=? c)%Z then (Z.shiftl B c <=? A)%Z
  else (B <=? Z.shiftl A (- c))%Z.

(** [floor (log2 (A / B))] for positive integers [A] and [B]: the bit
    lengths give the answer up to one, a comparison decides. *)
Definition floor_log2_ratio (A B : Z) : Z :=
  let d := (Z.log2 A - Z.log2 B)%Z in
  if pow2_mul_le d A B then d else (d - 1)%Z.

(** The same two functions on machine-word integers, which is what
    [floor_scaled_log2] runs: the powers have tens of thousands of bits. *)
Definition pow2_mul_le_big (c A B : bigZ) : bool :=
  if BigZ.leb BigZ.zero c then BigZ.leb (BigZ.shiftl B c) A
  else BigZ.leb B (BigZ.shiftl A (BigZ.opp c)).

Definition floor_log2_ratio_big (A B : bigZ) : bigZ :=
  let d := BigZ.sub (BigZ.log2 A) (BigZ.log2 B) in
  if pow2_mul_le_big d A B then d else BigZ.sub d BigZ.one.

(** [Math.floor(k * Math.log2(x))].  The program only calls it on a
    quotient of two positive frequencies; on [x <= 0] (where JavaScript
    gives [-Infinity] or [NaN]) the model returns 0. *)
Definition floor_scaled_log2 (k : positive) (x : Q) : Z :=
  if (Qnum x <=? 0)%Z then 0%Z
  else BigZ.to_Z (floor_log2_ratio_big
                    (BigZ.pow_pos (BigZ.of_Z (Qnum x)) k)
                    (BigZ.pow_pos (BigZ.of_Z (Zpos (Qden x))) k)).

(** ** [getNoteAndCents] in exact arithmetic *)

Record TuningResult : Type := mkTuningResult {
  tr_note : string;
  tr_cents : Z
}.

(** [diff < minDiff], with [None] for [Infinity]. *)
Definition lt_minDiff (diff : Q) (minDiff : option Q) : bool :=
  match minDiff with
  | None => true
  | Some m => negb (Qle_bool m diff)
  end.

(** One iteration of the [for (const note of noteNames)] loop; the loop
    state is the pair [(closestNote, minDiff)]. *)
Definition closest_step (frequency : Q) (st : PitchClass * option Q)
    (note : PitchClass) : PitchClass * option Q :=
  let diff := Qabs (frequency - TUNING_FREQUENCIES note) in
  if lt_minDiff diff (snd st) then (note, Some diff) else st.

(** Lines 22-32: the search for the closest note. *)
Definition closestNote (frequency : Q) : PitchClass :=
  let noteNames := Object_keys in
  fst (fold_left (closest_step frequency) noteNames (hd E2 noteNames, None)).

Definition getNoteAndCents (frequency : Q) : TuningResult :=
  if Qle_bool frequency 0 then mkTuningResult "--" 0
  else
    let closest := closestNote frequency in
    let targetFreq := TUNING_FREQUENCIES closest in
    let cents := floor_scaled_log2 1200 (frequency / targetFreq) in
    mkTuningResult (key_string closest) cents.


(** The real function behind [Math.log2]. *)
Definition log2R (x : R) : R := (ln x / ln 2)%R.

(** ** The component's state

    [GuitarTuner] keeps React state (what the next render shows), refs,
    the closure variable [previousPitch], and talks to the host: the
    animation-frame queue, timers and the audio objects. *)

(** A point of the chart ([newDataPoint]). *)
Record DataPoint : Type := mkDataPoint {
  time : Z;
  frequency : Q;
  dp_note : string
}.

(** Calls into the host that the program makes on audio objects and the
    frame scheduler; objects are named by the number they were created
    with. *)
Inductive HostCall : Type :=
| Disconnect (node : nat)
| CloseContext (context : nat)
| CancelAnimationFrame (id : nat)
| OscillatorStart (oscillator : nat) (hertz : Q)
| OscillatorStop (oscillator : nat)
| SetGain (gainNode : nat) (value : Q).

(** The two [setTimeout] callbacks of [playFrequency], with the objects
    they close over. *)
Inductive Timer : Type :=
| FadeTimer (oscillator gainNode : nat)
| StopTimer (oscillator : nat).

(** React state: the value last passed to each setter. *)
Record Display : Type := mkDisplay {
  note : string;
  cents : Z;
  status : string;
  playing : bool;
  frequencyData : list DataPoint
}.

(** The [.current] of each ref. *)
Record Refs : Type := mkRefs {
  audioContextRef : option nat;
  audioSourceRef : option nat;
  analyserRef : option nat;
  animationFrameRef : option nat;
  smoothingRef : Q;
  pitchFinderRef : option Z;      (* the detector, by its sample rate *)
  playContextRef : option nat;
  chartDataRef : list DataPoint
}.

Record Host : Type := mkHost {
  frameQueue : list nat;          (* requested frames, oldest first *)
  nextFrameId : nat;
  nextObject : nat;
  timers : list (Z * Timer);      (* delay in ms and callback *)
  hostCalls : list HostCall       (* calls made so far, oldest first *)
}.

Record Tuner : Type := mkTuner {
  display : Display;
  refs : Refs;
  previousPitch : Q;
  host : Host
}.

Definition initial : Tuner :=
  mkTuner (mkDisplay "--" 0 "Waiting for microphone access..." false [])
          (mkRefs None None None None 0.7 None None [])
          0
          (mkHost [] 1 0 [] []).

(** ** Completions: a statement returns or throws *)

Inductive Completion (A : Type) : Type :=
| Normal (value : A)
| Throw (message : string).
Arguments Normal {A} value.
Arguments Throw {A} message.

Definition Eff (A : Type) : Type := Tuner -> Completion A * Tuner.

Definition ret {A : Type} (a : A) : Eff A := fun s => (Normal a, s).

Definition throw {A : Type} (message : string) : Eff A :=
  fun s => (Throw message, s).

Definition bind {A B : Type} (m : Eff A) (k : A -> Eff B) : Eff B :=
  fun s =>
    match m s with
    | (Normal a, s') => k a s'
    | (Throw e, s') => (Throw e, s')
    end.

Definition gets {A : Type} (f : Tuner -> A) : Eff A := fun s => (Normal (f s), s).

Definition modify (f : Tuner -> Tuner) : Eff unit := fun s => (Normal tt, f s).

(** [try { body } catch (error) { handler(error.message) }]. *)
Definition try_catch {A : Type} (body : Eff A) (handler : string -> Eff A) : Eff A :=
  fun s =>
    match body s with
    | (Normal a, s') => (Normal a, s')
    | (Throw e, s') => handler e s'
    end.

Declare Scope eff_scope.
Delimit Scope eff_scope with eff.
Notation "x <- m ;; k" := (bind m (fun x => k))
  (at level 61, m at next level, right associativity) : eff_scope.
Notation "m ;; k" := (bind m (fun _ => k))
  (at level 61, right associativity) : eff_scope.
Local Open Scope eff_scope.

(** *** Field updates *)

Definition with_display (f : Display -> Display) (s : Tuner) : Tuner :=
  mkTuner (f (display s)) (refs s) (previousPitch s) (host s).

Definition with_refs (f : Refs -> Refs) (s : Tuner) : Tuner :=
  mkTuner (display s) (f (refs s)) (previousPitch s) (host s).

Definition with_host (f : Host -> Host) (s : Tuner) : Tuner :=
  mkTuner (display s) (refs s) (previousPitch s) (f (host s)).

Definition set_previousPitch (v : Q) : Eff unit :=
  modify (fun s => mkTuner (display s) (refs s) v (host s)).

Definition setNote (v : string) : Eff unit :=
  modify (with_display (fun d =>
    mkDisplay v (cents d) (status d) (playing d) (frequencyData d))).

Definition setCents (v : Z) : Eff unit :=
  modify (with_display (fun d =>
    mkDisplay (note d) v (status d) (playing d) (frequencyData d))).

Definition setStatus (v : string) : Eff unit :=
  modify (with_display (fun d =>
    mkDisplay (note d) (cents d) v (playing d) (frequencyData d))).

Definition setPlaying (v : bool) : Eff unit :=
  modify (with_display (fun d =>
    mkDisplay (note d) (cents d) (status d) v (frequencyData d))).

Definition setFrequencyData (v : list DataPoint) : Eff unit :=
  modify (with_display (fun d =>
    mkDisplay (note d) (cents d) (status d) (playing d) v)).

Definition set_audioContextRef (v : option nat) : Eff unit :=
  modify (with_refs (fun r =>
    mkRefs v (audioSourceRef r) (analyserRef r) (animationFrameRef r)
           (smoothingRef r) (pitchFinderRef r) (playContextRef r) (chartDataRef r))).

Definition set_audioSourceRef (v : option nat) : Eff unit :=
  modify (with_refs (fun r =>
    mkRefs (audioContextRef r) v (analyserRef r) (animationFrameRef r)
           (smoothingRef r) (pitchFinderRef r) (playContextRef r) (chartDataRef r))).

Definition set_analyserRef (v : option nat) : Eff unit :=
  modify (with_refs (fun r =>
    mkRefs (audioContextRef r) (audioSourceRef r) v (animationFrameRef r)
           (smoothingRef r) (pitchFinderRef r) (playContextRef r) (chartDataRef r))).

Definition set_animationFrameRef (v : option nat) : Eff unit :=
  modify (with_refs (fun r =>
    mkRefs (audioContextRef r) (audioSourceRef r) (analyserRef r) v
           (smoothingRef r) (pitchFinderRef r) (playContextRef r) (chartDataRef r))).

Definition set_pitchFinderRef (v : option Z) : Eff unit :=
  modify (with_refs (fun r =>
    mkRefs (audioContextRef r) (audioSourceRef r) (analyserRef r) (animationFrameRef r)
           (smoothingRef r) v (playContextRef r) (chartDataRef r))).

Definition set_playContextRef (v : option nat) : Eff unit :=
  modify (with_refs (fun r =>
    mkRefs (audioContextRef r) (audioSourceRef r) (analyserRef r) (animationFrameRef r)
           (smoothingRef r) (pitchFinderRef r) v (chartDataRef r))).

Definition set_chartDataRef (v : list DataPoint) : Eff unit :=
  modify (with_refs (fun r =>
    mkRefs (audioContextRef r) (audioSourceRef r) (analyserRef r) (animationFrameRef r)
           (smoothingRef r) (pitchFinderRef r) (playContextRef r) v)).

(** *** The host *)

(** A new audio object ([new AudioContext()], [createOscillator()], ...). *)
Definition newObject : Eff nat :=
  fun s =>
    let h := host s in
    (Normal (nextObject h),
     with_host (fun h => mkHost (frameQueue h) (nextFrameId h) (S (nextObject h))
                                (timers h) (hostCalls h)) s).

(** [requestAnimationFrame(updatePitch)]: every callback the program
    registers is [updatePitch], so the queue holds the ids only. *)
Definition requestAnimationFrame : Eff nat :=
  fun s =>
    let h := host s in
    (Normal (nextFrameId h),
     with_host (fun h => mkHost (frameQueue h ++ [nextFrameId h]) (S (nextFrameId h))
                                (nextObject h) (timers h) (hostCalls h)) s).

(** [setTimeout(callback, delay)]. *)
Definition setTimeout (callback : Timer) (delay : Z) : Eff unit :=
  modify (with_host (fun h =>
    mkHost (frameQueue h) (nextFrameId h) (nextObject h)
           (timers h ++ [(delay, callback)]) (hostCalls h))).

(** What a call does to the host besides being made: cancelling a frame
    takes it out of the queue. *)
Definition host_effect (c : HostCall) (h : Host) : Host :=
  match c with
  | CancelAnimationFrame id =>
      mkHost (filter (fun i => negb (Nat.eqb i id)) (frameQueue h))
             (nextFrameId h) (nextObject h) (timers h) (hostCalls h)
  | _ => h
  end.

(** A call into the host.  [throws] says which calls the host answers
    with an exception; a call that throws was still made. *)
Definition hostCall (throws : HostCall -> bool) (c : HostCall) : Eff unit :=
  fun s =>
    let s' := with_host (fun h =>
                let h' := host_effect c h in
                mkHost (frameQueue h') (nextFrameId h') (nextObject h')
                       (timers h') (hostCalls h' ++ [c])) s in
    if throws c then (Throw "host call failed", s') else (Normal tt, s').

(** A host in which no call throws. *)
Definition never_throws (c : HostCall) : bool := false.

(** ** The acquisition loop *)

(** What [pitchFinderRef.current(buffer)] does in one tick. *)
Inductive Estimate : Type :=
| EstNull
| EstNumber (hertz : Q)
| EstThrows (message : string).

(** What one call of [updatePitch] reads from outside: the clock and the
    detector. *)
Record Tick : Type := mkTick {
  now : Z;
  estimate : Estimate
}.

Definition callPitchFinder (e : Estimate) : Eff (option Q) :=
  match e with
  | EstNull => ret None
  | EstNumber f => ret (Some f)
  | EstThrows message => throw message
  end.

Definition isNull {A : Type} (r : option A) : bool :=
  match r with Some _ => false | None => true end.

(** Lines 74-111. *)
Definition updatePitch (t : Tick) : Eff unit :=
  analyser <- gets (fun s => analyserRef (refs s)) ;;
  finder <- gets (fun s => pitchFinderRef (refs s)) ;;
  if isNull analyser || isNull finder then ret tt
  else
    found <- callPitchFinder (estimate t) ;;
    match found with
    | Some frequency =>
        previous <- gets previousPitch ;;
        smoothing <- gets (fun s => smoothingRef (refs s)) ;;
        let smoothedPitch :=
          if Qeq_bool previous 0 then frequency
          else smoothing * previous + (1 - smoothing) * frequency in
        let result := getNoteAndCents smoothedPitch in
        setNote (tr_note result) ;;
        setCents (tr_cents result) ;;
        let newDataPoint := mkDataPoint (now t) smoothedPitch (tr_note result) in
        chart <- gets (fun s => chartDataRef (refs s)) ;;
        set_chartDataRef (chart ++ [newDataPoint]) ;;
        chart <- gets (fun s => chartDataRef (refs s)) ;;
        setFrequencyData chart ;;
        set_previousPitch smoothedPitch
    | None =>
        setNote "--" ;;
        setCents 0 ;;
        set_previousPitch 0 ;;
        let newDataPoint := mkDataPoint (now t) 0 "--" in
        chart <- gets (fun s => chartDataRef (refs s)) ;;
        set_chartDataRef (chart ++ [newDataPoint]) ;;
        chart <- gets (fun s => chartDataRef (refs s)) ;;
        setFrequencyData chart
    end ;;
    id <- requestAnimationFrame ;;
    set_animationFrameRef (Some id).

(** How [getUserMedia] settles. *)
Inductive UserMedia : Type :=
| Granted (sampleRate : Z)
| Denied (message : string).

(** Lines 56-119; the first [updatePitch()] runs inside the [try]. *)
Definition initializePitchDetection (media : UserMedia) (first : Tick) : Eff unit :=
  try_catch
    (inputSampleRate <- match media with
                        | Granted rate => ret rate
                        | Denied message => throw message
                        end ;;
     setStatus "Microphone access granted." ;;
     context <- newObject ;;
     set_audioContextRef (Some context) ;;
     source <- newObject ;;
     set_audioSourceRef (Some source) ;;
     analyser <- newObject ;;
     set_analyserRef (Some analyser) ;;
     set_pitchFinderRef (Some inputSampleRate) ;;
     set_previousPitch 0 ;;
     updatePitch first)
    (fun message => setStatus ("Error accessing microphone: " ++ message)%string).

(** The host runs the oldest requested frame callback.  An exception
    that escapes the callback goes to the host, which reports it; the
    state stays as the callback left it. *)
Definition pop_frame (s : Tuner) (rest : list nat) : Tuner :=
  with_host (fun h => mkHost rest (nextFrameId h) (nextObject h)
                             (timers h) (hostCalls h)) s.

Definition animationFrame (t : Tick) (s : Tuner) : Tuner :=
  match frameQueue (host s) with
  | [] => s
  | _ :: rest => snd (updatePitch t (pop_frame s rest))
  end.

Definition frames (ts : list Tick) (s : Tuner) : Tuner :=
  fold_left (fun s t => animationFrame t s) ts s.

(** A session whose microphone was granted: the first tick runs in
    [initializePitchDetection], the others from the frame queue. *)
Definition session (ts : list Tick) : Tuner :=
  match ts with
  | [] => initial
  | first :: rest =>
      frames rest (snd (initializePitchDetection (Granted 48000) first initial))
  end.

(** The note and cents shown after each tick. *)
Fixpoint shown_from (ts : list Tick) (s : Tuner) : list (string * Z) :=
  match ts with
  | [] => []
  | t :: rest =>
      let s' := animationFrame t s in
      (note (display s'), cents (display s')) :: shown_from rest s'
  end.

Definition shown (ts : list Tick) : list (string * Z) :=
  match ts with
  | [] => []
  | first :: rest =>
      let s := snd (initializePitchDetection (Granted 48000) first initial) in
      (note (display s), cents (display s)) :: shown_from rest s
  end.

(** ** Teardown: the function returned from the effect (lines 123-140) *)

(** [if (ref.current)] for a ref that holds a number: 0 is falsy. *)
Definition truthy_id (r : option nat) : option nat :=
  match r with
  | Some O => None
  | other => other
  end.

Definition cleanup (throws : HostCall -> bool) : Eff unit :=
  source <- gets (fun s => audioSourceRef (refs s)) ;;
  match source with
  | Some node => hostCall throws (Disconnect node)
  | None => ret tt
  end ;;
  analyser <- gets (fun s => analyserRef (refs s)) ;;
  match analyser with
  | Some node => hostCall throws (Disconnect node)
  | None => ret tt
  end ;;
  context <- gets (fun s => audioContextRef (refs s)) ;;
  match context with
  | Some c => hostCall throws (CloseContext c)
  | None => ret tt
  end ;;
  frame <- gets (fun s => truthy_id (animationFrameRef (refs s))) ;;
  match frame with
  | Some id => hostCall throws (CancelAnimationFrame id)
  | None => ret tt
  end ;;
  playContext <- gets (fun s => playContextRef (refs s)) ;;
  match playContext with
  | Some c => hostCall throws (CloseContext c)
  | None => ret tt
  end.

(** The release calls [cleanup] has to make for the refs that are set,
    in the order of the source. *)
Definition releases (r : Refs) : list HostCall :=
  match audioSourceRef r with Some n => [Disconnect n] | None => [] end ++
  match analyserRef r with Some n => [Disconnect n] | None => [] end ++
  match audioContextRef r with Some c => [CloseContext c] | None => [] end ++
  match truthy_id (animationFrameRef r) with
  | Some id => [CancelAnimationFrame id] | None => [] end ++
  match playContextRef r with Some c => [CloseContext c] | None => [] end.

(** ** The reference-tone player (lines 181-208) *)

(** [playFrequency] is created by a render and closes over that
    render's [playing]; the captured value is the first argument. *)
Definition playFrequency (throws : HostCall -> bool) (playing : bool)
    (hertz : Q) : Eff unit :=
  if negb playing then
    context <- newObject ;;
    set_playContextRef (Some context) ;;
    oscillator <- newObject ;;
    gainNode <- newObject ;;
    hostCall throws (SetGain gainNode 0.4) ;;
    hostCall throws (OscillatorStart oscillator hertz) ;;
    setPlaying true ;;
    setTimeout (FadeTimer oscillator gainNode) 1000
  else ret tt.

(** [playContextRef.current.currentTime]: a [TypeError] when the ref is
    null. *)
Definition currentTime_of_playContext : Eff unit :=
  context <- gets (fun s => playContextRef (refs s)) ;;
  match context with
  | Some _ => ret tt
  | None => throw "TypeError: playContextRef.current is null"
  end.

(** The outer [setTimeout] callback (after 1000 ms). *)
Definition fadeOut (throws : HostCall -> bool) (oscillator gainNode : nat) : Eff unit :=
  currentTime_of_playContext ;;
  hostCall throws (SetGain gainNode 0) ;;
  setTimeout (StopTimer oscillator) 200.

(** The inner [setTimeout] callback (200 ms later). *)
Definition stopTone (throws : HostCall -> bool) (oscillator : nat) : Eff unit :=
  currentTime_of_playContext ;;
  hostCall throws (OscillatorStop oscillator) ;;
  setPlaying false ;;
  context <- gets (fun s => playContextRef (refs s)) ;;
  match context with
  | Some c => hostCall throws (CloseContext c) ;; set_playContextRef None
  | None => ret tt
  end.

Definition runTimer (throws : HostCall -> bool) (t : Timer) : Eff unit :=
  match t with
  | FadeTimer oscillator gainNode => fadeOut throws oscillator gainNode
  | StopTimer oscillator => stopTone throws oscillator
  end.

(** The host fires the [n]-th pending timer. *)
Definition timerFires (throws : HostCall -> bool) (n : nat) (s : Tuner) : Tuner :=
  match nth_error (timers (host s)) n with
  | None => s
  | Some (_, t) =>
      snd (runTimer throws t
             (with_host (fun h =>
                mkHost (frameQueue h) (nextFrameId h) (nextObject h)
                       (firstn n (timers h) ++ skipn (S n) (timers h))
                       (hostCalls h)) s))
  end.

(** The button of the current render: [disabled={playing}], and its
    [onClick] calls the render's [playFrequency] on the low E. *)
Definition click (throws : HostCall -> bool) (s : Tuner) : Tuner :=
  if playing (display s) then s
  else snd (playFrequency throws (playing (display s)) (TUNING_FREQUENCIES E2) s).

(** The tones started so far. *)
Definition tones_started (s : Tuner) : list HostCall :=
  filter (fun c => match c with OscillatorStart _ _ => true | _ => false end)
         (hostCalls (host s)).

(** The oscillators that were started and not stopped. *)
Definition stopped (o : nat) (calls : list HostCall) : bool :=
  existsb (fun c => match c with OscillatorStop o' => Nat.eqb o o' | _ => false end) calls.

Definition sounding (s : Tuner) : list nat :=
  flat_map (fun c => match c with
                     | OscillatorStart o _ =>
                         if stopped o (hostCalls (host s)) then [] else [o]
                     | _ => []
                     end)
           (hostCalls (host s)).

(** ** Notions used to state the properties *)

(** [n] is the first key of [keys] at the least distance from [f]:
    every key before it is strictly farther, none after it is closer. *)
Definition first_minimum (f : Q) (keys : list PitchClass) (n : PitchClass) : Prop :=
  exists before after,
    keys = before ++ n :: after /\
    (forall m, In m before ->
       Qabs (f - TUNING_FREQUENCIES n) < Qabs (f - TUNING_FREQUENCIES m)) /\
    (forall m, In m after ->
       Qabs (f - TUNING_FREQUENCIES n) <= Qabs (f - TUNING_FREQUENCIES m)).

(** The invariant of the search loop after the keys [seen]. *)
Definition search_invariant (f : Q) (seen : list PitchClass)
    (st : PitchClass * option Q) : Prop :=
  match snd st with
  | None => seen = []
  | Some d => d = Qabs (f - TUNING_FREQUENCIES (fst st)) /\
              first_minimum f seen (fst st)
  end.

(** The guard of line 75 passes: the analyser and the detector are set. *)
Definition active (s : Tuner) : Prop :=
  analyserRef (refs s) <> None /\ pitchFinderRef (refs s) <> None.

(** The loop is alive: the guard passes and exactly one frame is
    requested. *)
Definition running (s : Tuner) : Prop :=
  active s /\ exists id, frameQueue (host s) = [id].

Definition completes (t : Tick) : Prop :=
  match estimate t with
  | EstThrows _ => False
  | _ => True
  end.

Definition nondecreasing (l : list Z) : Prop :=
  forall i j a b, (i <= j)%nat ->
    nth_error l i = Some a -> nth_error l j = Some b -> (a <= b)%Z.

(** The smoothed value of line 81-83, in exact arithmetic. *)
Definition smoothed (smoothing previous estimate : Q) : Q :=
  if Qeq_bool previous 0 then estimate
  else smoothing * previous + (1 - smoothing) * estimate.

(** Calls made one after the other; the first that throws ends the
    sequence. *)
Fixpoint run_calls (throws : HostCall -> bool) (cs : list HostCall) : Eff unit :=
  match cs with
  | [] => ret tt
  | c :: rest => hostCall throws c ;; run_calls throws rest
  end.

(** The run of the ticks of the scenario with raw estimates
    none, 82.41, 82.0, 82.41, read at four clock values. *)
Definition scenario (t0 t1 t2 t3 : Z) : list Tick :=
  [mkTick t0 EstNull; mkTick t1 (EstNumber 82.41);
   mkTick t2 (EstNumber 82.0); mkTick t3 (EstNumber 82.41)].

(** ** The cents indicator (lines 144-178) *)

Inductive BarColor : Type := gray | white | green | red.

(** One [<div>] of the indicator: its [key], its height in pixels and
    its [backgroundColor]; the other style attributes are constants. *)
Record Bar : Type := mkBar {
  bar_key : Z;
  bar_height : Z;
  backgroundColor : BarColor
}.

(** [renderCentsIndicator] reads the [cents] of its render.  The loop
    [for (let i = 0; i < numBars; i++)] pushes one bar per index. *)
Definition renderCentsIndicator (cents : Z) : list Bar :=
  let numBars := 21%Z in
  let centerBarIndex := (numBars / 2)%Z in
  let activeBarIndex := (centerBarIndex + cents / 5)%Z in
  map (fun i : Z =>
         let barColor :=
           if (i =? centerBarIndex)%Z then white
           else if (i =? activeBarIndex)%Z then
                  (if (0 <? cents)%Z then green else red)
                else gray in
         mkBar i (if (i =? centerBarIndex)%Z then 30%Z else 20%Z) barColor)
      (map Z.of_nat (seq 0 (Z.to_nat numBars))).

(** A bar that shows a deviation. *)
Definition lit (b : Bar) : Prop :=
  backgroundColor b = green \/ backgroundColor b = red.

(** The position of a key in [Object.keys(TUNING_FREQUENCIES)]. *)
Definition key_index (n : PitchClass) : nat :=
  match n with
  | E2 => 0 | A2 => 1 | D3 => 2 | G3 => 3 | B3 => 4 | E4 => 5
  end.

(** ** Notions for the session invariants *)

(** The state [initializePitchDetection] has built when it calls
    [updatePitch] for the first time: the three audio objects, the
    detector, and [previousPitch = 0]. *)
Definition granted (inputSampleRate : Z) : Tuner :=
  mkTuner (mkDisplay "--" 0 "Microphone access granted." false [])
          (mkRefs (Some 0%nat) (Some 1%nat) (Some 2%nat) None 0.7
                  (Some inputSampleRate) None [])
          0
          (mkHost [] 1 3 [] []).

(** A chart point whose note is the classification of its own
    frequency. *)
Definition labelled (p : DataPoint) : Prop :=
  dp_note p = tr_note (getNoteAndCents (frequency p)).

(** The one requested frame is the one [animationFrameRef] holds. *)
Definition frame_held (s : Tuner) : Prop :=
  active s /\ nextFrameId (host s) <> 0%nat /\
  exists id, id <> 0%nat /\ frameQueue (host s) = [id] /\
             animationFrameRef (refs s) = Some id.

(** The player is at rest: [playing] is false and no timer is set. *)
Definition at_rest (s : Tuner) : Prop :=
  playing (display s) = false /\ timers (host s) = [].

(** The part of the state the acquisition loop works on is the same in
    [s] and [s']. *)
Definition same_loop_state (s s' : Tuner) : Prop :=
  chartDataRef (refs s') = chartDataRef (refs s) /\
  frequencyData (display s') = frequencyData (display s) /\
  note (display s') = note (display s) /\
  cents (display s') = cents (display s) /\
  previousPitch s' = previousPitch s /\
  frameQueue (host s') = frameQueue (host s) /\
  animationFrameRef (refs s') = animationFrameRef (refs s) /\
  analyserRef (refs s') = analyserRef (refs s) /\
  pitchFinderRef (refs s') = pitchFinderRef (refs s).

(** The part of the state the tone player works on is the same in [s]
    and [s']. *)
Definition same_player_state (s s' : Tuner) : Prop :=
  playing (display s') = playing (display s) /\
  playContextRef (refs s') = playContextRef (refs s) /\
  timers (host s') = timers (host s) /\
  nextObject (host s') = nextObject (host s) /\
  hostCalls (host s') = hostCalls (host s).

(** ** What the component renders (lines 210-256) *)

(** The parts of the JSX that depend on the state. *)
Record View : Type := mkView {
  status_text : string;           (* <p id="status"> *)
  note_text : string;             (* <p id="note"> *)
  indicator : list Bar;           (* renderCentsIndicator() *)
  cents_text : string;            (* <p id="cents"> *)
  button_disabled : bool;         (* disabled={playing} *)
  chart_data : list DataPoint     (* data={frequencyData} *)
}.

(** [`${cents}`] for an integer: its decimal digits, with a minus sign
    when it is negative. *)
Definition number_to_string (z : Z) : string :=
  NilZero.string_of_int (Z.to_int z).

Definition render (s : Tuner) : View :=
  let d := display s in
  mkView (status d)
         (note d)
         (renderCentsIndicator (cents d))
         (if (cents d =? 0)%Z then "In Tune"
          else (number_to_string (cents d) ++ " cents")%string)
         (playing d)
         (frequencyData d).

Set Warnings "-inexact-float".

(** ** The numeric path in binary64

    JavaScript numbers are IEEE 754 binary64.  This module is lines
    3-10, 17-38 and 80-109 once more, on the primitive binary64 numbers:
    every operator rounds as it does in the program, [Infinity] and
    [NaN] are values, and [<], [<=] and [===] are the comparisons of
    IEEE 754 (false on [NaN]; [-0] equals [0]). *)

Module Binary64.
Local Open Scope float_scope.

(** [TUNING_FREQUENCIES[note]]: each literal denotes the double nearest
    to it. *)
Definition TUNING_FREQUENCIES (note : PitchClass) : float :=
  match note with
  | E2 => 82.41
  | A2 => 110.00
  | D3 => 146.83
  | G3 => 196.00
  | B3 => 246.94
  | E4 => 329.63
  end.

(** The double of an integer below [2^53] in absolute value. *)
Definition of_Z (z : Z) : float :=
  if (z <? 0)%Z then - of_uint63 (Uint63.of_Z (- z))
  else of_uint63 (Uint63.of_Z z).

(** [Math.floor]: a double [m * 2^e] with [0 <= e] is an integer
    already; otherwise the mantissa is shifted right, which rounds
    toward minus infinity.  Zeros, infinities and [NaN] are returned
    as they are. *)
Definition Math_floor (x : float) : float :=
  match Prim2SF x with
  | S754_finite s m e =>
      if (0 <=? e)%Z then x
      else of_Z (Z.shiftr (if s then Zneg m else Zpos m) (- e))
  | _ => x
  end.

Record TuningResult : Type := mkTuningResult {
  tr_note : string;
  tr_cents : float
}.

(** One iteration of the [for (const note of noteNames)] loop; the loop
    state is the pair [(closestNote, minDiff)]. *)
Definition closest_step (frequency : float) (st : PitchClass * float)
    (note : PitchClass) : PitchClass * float :=
  let diff := abs (frequency - TUNING_FREQUENCIES note) in
  if diff <? snd st then (note, diff) else st.

(** The difference of line 27 for the key [note]. *)
Definition diff (frequency : float) (note : PitchClass) : float :=
  abs (frequency - TUNING_FREQUENCIES note).

(** Lines 22-32: [closestNote] and [minDiff] when the loop ends. *)
Definition search (frequency : float) : PitchClass * float :=
  let noteNames := Object_keys in
  fold_left (closest_step frequency) noteNames (hd E2 noteNames, infinity).

Definition closestNote (frequency : float) : PitchClass :=
  fst (search frequency).

(** What one tick reads and writes on the numeric path. *)
Record DataPoint : Type := mkDataPoint {
  time : Z;
  frequency : float;
  dp_note : string
}.

Record Numbers : Type := mkNumbers {
  smoothingRef : float;
  previousPitch : float;
  note : string;
  cents : float;
  chartDataRef : list DataPoint;
  frequencyData : list DataPoint
}.

Section Host.

(** [Math.log2] is implementation-approximated in ECMAScript, which
    fixes its value only at a few arguments ([Math.log2(1)] is [+0],
    [Math.log2(0)] is [-Infinity]); the program is modelled for any such
    function. *)
Variable Math_log2 : float -> float.

(** Lines 17-38. *)
Definition getNoteAndCents (frequency : float) : TuningResult :=
  if frequency <=? 0 then mkTuningResult "--" 0
  else
    let closest := closestNote frequency in
    let targetFreq := TUNING_FREQUENCIES closest in
    let cents := Math_floor (1200 * Math_log2 (frequency / targetFreq)) in
    mkTuningResult (key_string closest) cents.

(** Lines 80-109, after the detector has returned [found]. *)
Definition updatePitch (now : Z) (found : option float) (s : Numbers) : Numbers :=
  match found with
  | Some frequency =>
      let smoothedPitch :=
        if previousPitch s =? 0 then frequency
        else smoothingRef s * previousPitch s + (1 - smoothingRef s) * frequency in
      let result := getNoteAndCents smoothedPitch in
      let newDataPoint := mkDataPoint now smoothedPitch (tr_note result) in
      let chart := chartDataRef s ++ [newDataPoint] in
      mkNumbers (smoothingRef s) smoothedPitch (tr_note result) (tr_cents result)
                chart chart
  | None =>
      let newDataPoint := mkDataPoint now 0 "--" in
      let chart := chartDataRef s ++ [newDataPoint] in
      mkNumbers (smoothingRef s) 0 "--" 0 chart chart
  end.

End Host.

(** The state when the loop starts: [smoothingRef] is [useRef(0.7)],
    line 59 sets [previousPitch] to 0. *)
Definition initial : Numbers := mkNumbers 0.7 0 "--" 0 [] [].

(** One implementation of [Math.log2], used to run the program on given
    inputs: the argument is reduced to [m * 2^k] with [m] between
    [sqrt(1/2)] and [sqrt 2], and [ln m] is [2 * atanh ((m - 1) / (m + 1))]
    by its series.  It has the values ECMAScript fixes. *)
Definition log2_series (x : float) : float :=
  if negb (x =? x) then nan
  else if x <? 0 then nan
  else if x =? 0 then neg_infinity
  else if x =? infinity then infinity
  else
    let (m, e) := frshiftexp x in
    let k := of_uint63 e - of_uint63 2101 in
    let (m, k) := if m <? 0.70710678118654757 then (2 * m, k - 1) else (m, k) in
    let t := (m - 1) / (m + 1) in
    let u := t * t in
    let p := 1 + u * (1/3 + u * (1/5 + u * (1/7 + u * (1/9 + u * (1/11
             + u * (1/13 + u * (1/15 + u * (1/17 + u * (1/19 + u * (1/21
             + u * (1/23))))))))))) in
    k + 2 * t * p * 1.4426950408889634.

(** The rational number a finite double stands for; the function is
    used on finite doubles only (it gives 0 on the others). *)
Definition value (x : float) : Q :=
  match Prim2SF x with
  | S754_finite s m e =>
      inject_Z (if s then Zneg m else Zpos m) * Qpower 2 e
  | _ => 0%Q
  end.

End Binary64.

(** The order on doubles as [SFcompare] decides it: [a] is below [b],
    or equal to it. *)
Definition SFle (a b : spec_float) : Prop :=
  SFcompare a b = Some Lt \/ SFcompare a b = Some Eq.

(** The invariant of the binary64 search after the keys [seen]: no key
    seen has a difference below [minDiff]; and either nothing was below
    [Infinity] yet, or [minDiff] is the difference of [closestNote],
    which is among the keys seen, after keys whose difference is not
    below or equal to it. *)
Definition search_invariant64 (f : float) (seen : list PitchClass)
    (st : PitchClass * float) : Prop :=
  (forall m, In m seen -> PrimFloat.ltb (Binary64.diff f m) (snd st) = false) /\
  ((snd st = infinity /\ fst st = E2) \/
   (snd st = Binary64.diff f (fst st) /\
    exists before after,
      seen = before ++ fst st :: after /\
      forall m, In m before ->
        PrimFloat.leb (Binary64.diff f m) (Binary64.diff f (fst st)) = false)).

(** ** The integer computation against the real logarithm *)

Section FloorLog2.
Local Open Scope R_scope.

Lemma ln2_pos : 0 < ln 2.
Proof. pose proof ln_lt_2. lra. Qed.

Lemma ln_le_mono (x y : R) : 0 < x -> x <= y -> ln x <= ln y.
Proof.
  intros Hx [Hlt | ->].
  - left. now apply ln_increasing.
  - right. reflexivity.
Qed.

Lemma Rpower2_pos (c : R) : 0 < Rpower 2 c.
Proof. unfold Rpower. apply exp_pos. Qed.

Lemma ln_Rpower2 (c : R) : ln (Rpower 2 c) = c * ln 2.
Proof. unfold Rpower. apply ln_exp. Qed.

Lemma IZR_pow2 (c : Z) : (0 <= c)%Z -> IZR (2 ^ c) = Rpower 2 (IZR c).
Proof.
  intros Hc.
  rewrite <- (Z2Nat.id c Hc) at 1 2.
  rewrite <- pow_IZR, <- INR_IZR_INZ.
  symmetry. apply Rpower_pow. lra.
Qed.

Lemma Rpower2_opp (c : Z) : Rpower 2 (IZR (- c)) = / Rpower 2 (IZR c).
Proof. rewrite opp_IZR. apply Rpower_Ropp. Qed.

Lemma pow2_mul_le_spec (c A B : Z) :
  (0 < A)%Z -> (0 < B)%Z ->
  pow2_mul_le c A B = true <-> Rpower 2 (IZR c) * IZR B <= IZR A.
Proof.
  intros HA HB. unfold pow2_mul_le.
  destruct (Z.leb_spec 0 c) as [Hc | Hc].
  - rewrite Z.shiftl_mul_pow2 by lia.
    rewrite Z.leb_le, <- IZR_pow2 by lia.
    rewrite <- mult_IZR, Z.mul_comm.
    split; [apply IZR_le | apply le_IZR].
  - rewrite Z.shiftl_mul_pow2 by lia.
    rewrite Z.leb_le.
    replace c with (- - c)%Z at 2 by lia.
    rewrite Rpower2_opp, <- IZR_pow2 by lia.
    assert (Hp : 0 < IZR (2 ^ (- c))) by (apply IZR_lt; apply Z.pow_pos_nonneg; lia).
    split; intros H.
    + apply IZR_le in H. rewrite mult_IZR in H.
      apply Rmult_le_reg_l with (r := IZR (2 ^ (- c))); [exact Hp |].
      rewrite <- Rmult_assoc, Rinv_r by lra. lra.
    + apply le_IZR. rewrite mult_IZR.
      apply Rmult_le_compat_l with (r := IZR (2 ^ (- c))) in H; [| lra].
      rewrite <- Rmult_assoc, Rinv_r in H by lra. lra.
Qed.

Lemma log2_bounds_R (A : Z) :
  (0 < A)%Z ->
  Rpower 2 (IZR (Z.log2 A)) <= IZR A < Rpower 2 (IZR (Z.log2 A + 1)).
Proof.
  intros HA.
  destruct (Z.log2_spec A HA) as [Hlo Hhi].
  pose proof (Z.log2_nonneg A) as Hnn.
  rewrite <- !IZR_pow2 by lia.
  split; [apply IZR_le; exact Hlo | apply IZR_lt].
  replace (Z.log2 A + 1)%Z with (Z.succ (Z.log2 A)) by lia. exact Hhi.
Qed.

(** [floor_log2_ratio A B] is the integer [c] with
    [2^c <= A / B < 2^(c+1)]. *)
Lemma floor_log2_ratio_spec (A B : Z) :
  (0 < A)%Z -> (0 < B)%Z ->
  let c := floor_log2_ratio A B in
  Rpower 2 (IZR c) * IZR B <= IZR A < Rpower 2 (IZR (c + 1)) * IZR B.
Proof.
  intros HA HB c.
  destruct (log2_bounds_R A HA) as [HAl HAh].
  destruct (log2_bounds_R B HB) as [HBl HBh].
  set (la := Z.log2 A) in *. set (lb := Z.log2 B) in *.
  assert (HBpos : 0 < IZR B) by (apply IZR_lt; exact HB).
  assert (Hlow : Rpower 2 (IZR (la - lb - 1)) * IZR B <= IZR A).
  { apply Rle_trans with (Rpower 2 (IZR (la - lb - 1)) * Rpower 2 (IZR (lb + 1))).
    - apply Rmult_le_compat_l; [left; apply Rpower2_pos | lra].
    - rewrite <- Rpower_plus, <- plus_IZR.
      replace (la - lb - 1 + (lb + 1))%Z with la by lia. exact HAl. }
  assert (Hhigh : IZR A < Rpower 2 (IZR (la - lb + 1)) * IZR B).
  { apply Rlt_le_trans with (Rpower 2 (IZR (la - lb + 1)) * Rpower 2 (IZR lb)).
    - rewrite <- Rpower_plus, <- plus_IZR.
      replace (la - lb + 1 + lb)%Z with (la + 1)%Z by lia. exact HAh.
    - apply Rmult_le_compat_l; [left; apply Rpower2_pos | lra]. }
  subst c. unfold floor_log2_ratio. fold la lb.
  destruct (pow2_mul_le (la - lb) A B) eqn:Ht.
  - apply pow2_mul_le_spec in Ht; try assumption. split; assumption.
  - replace (la - lb - 1 + 1)%Z with (la - lb)%Z by lia.
    split; [exact Hlow |].
    apply Rnot_le_lt. intros Hc.
    apply (pow2_mul_le_spec (la - lb) A B HA HB) in Hc. congruence.
Qed.

Lemma IZR_pow_pos (a : Z) (k : positive) :
  IZR (a ^ Zpos k) = IZR a ^ Pos.to_nat k.
Proof. rewrite pow_IZR, positive_nat_Z. reflexivity. Qed.

Lemma ln_IZR_pow (a : Z) (k : positive) :
  (0 < a)%Z -> ln (IZR (a ^ Zpos k)) = IZR (Zpos k) * ln (IZR a).
Proof.
  intros Ha. rewrite IZR_pow_pos, ln_pow by (apply IZR_lt; exact Ha).
  rewrite INR_IZR_INZ, positive_nat_Z. reflexivity.
Qed.

Lemma ln_Q2R (r : Q) :
  (0 < Qnum r)%Z -> ln (Q2R r) = ln (IZR (Qnum r)) - ln (IZR (Zpos (Qden r))).
Proof.
  intros Hn. unfold Q2R.
  assert (0 < IZR (Qnum r)) by (apply IZR_lt; exact Hn).
  assert (0 < IZR (Zpos (Qden r))) by (apply IZR_lt; reflexivity).
  rewrite ln_mult, ln_Rinv; try assumption; [lra |].
  now apply Rinv_0_lt_compat.
Qed.

Lemma pow2_mul_le_big_spec (c A B : bigZ) :
  pow2_mul_le_big c A B = pow2_mul_le (BigZ.to_Z c) (BigZ.to_Z A) (BigZ.to_Z B).
Proof.
  unfold pow2_mul_le_big, pow2_mul_le.
  rewrite !BigZ.spec_leb, !BigZ.spec_shiftl, BigZ.spec_opp, BigZ.spec_0.
  reflexivity.
Qed.

Lemma floor_log2_ratio_big_spec (A B : bigZ) :
  BigZ.to_Z (floor_log2_ratio_big A B) = floor_log2_ratio (BigZ.to_Z A) (BigZ.to_Z B).
Proof.
  unfold floor_log2_ratio_big, floor_log2_ratio.
  rewrite pow2_mul_le_big_spec, BigZ.spec_sub, !BigZ.spec_log2.
  destruct (pow2_mul_le _ _ _).
  - rewrite BigZ.spec_sub, !BigZ.spec_log2. reflexivity.
  - rewrite !BigZ.spec_sub, !BigZ.spec_log2, BigZ.spec_1. reflexivity.
Qed.

(** What [floor_scaled_log2] computes, on plain integers. *)
Lemma floor_scaled_log2_Z (k : positive) (x : Q) :
  (0 < Qnum x)%Z ->
  floor_scaled_log2 k x
  = floor_log2_ratio (Qnum x ^ Zpos k) (Zpos (Qden x) ^ Zpos k).
Proof.
  intros Hn. unfold floor_scaled_log2.
  destruct (Z.leb_spec (Qnum x) 0) as [Hle | _]; [lia |].
  rewrite floor_log2_ratio_big_spec, !BigZ.spec_pow_pos, !BigZ.spec_of_Z.
  reflexivity.
Qed.

(** The defining property of [Math.floor(k * Math.log2(x))]. *)
Lemma floor_scaled_log2_spec (k : positive) (x : Q) :
  (0 < x)%Q ->
  let c := floor_scaled_log2 k x in
  IZR c <= IZR (Zpos k) * log2R (Q2R x) < IZR c + 1.
Proof.
  intros Hx c. subst c.
  assert (Hn : (0 < Qnum x)%Z).
  { unfold Qlt in Hx. simpl in Hx. lia. }
  rewrite floor_scaled_log2_Z by exact Hn.
  set (A := (Qnum x ^ Zpos k)%Z). set (B := (Zpos (Qden x) ^ Zpos k)%Z).
  assert (HA : (0 < A)%Z) by (apply Z.pow_pos_nonneg; lia).
  assert (HB : (0 < B)%Z) by (apply Z.pow_pos_nonneg; lia).
  destruct (floor_log2_ratio_spec A B HA HB) as [Hlo Hhi].
  set (c := floor_log2_ratio A B) in *.
  assert (HAr : 0 < IZR A) by (apply IZR_lt; exact HA).
  assert (HBr : 0 < IZR B) by (apply IZR_lt; exact HB).
  assert (Hk : IZR (Zpos k) * ln (Q2R x) = ln (IZR A) - ln (IZR B)).
  { unfold A, B. rewrite ln_Q2R by exact Hn.
    rewrite !ln_IZR_pow by lia. ring. }
  assert (Hl1 : IZR c * ln 2 + ln (IZR B) <= ln (IZR A)).
  { rewrite <- ln_Rpower2, <- ln_mult by (try apply Rpower2_pos; assumption).
    apply ln_le_mono; [| exact Hlo].
    apply Rmult_lt_0_compat; [apply Rpower2_pos | exact HBr]. }
  assert (Hl2 : ln (IZR A) < (IZR c + 1) * ln 2 + ln (IZR B)).
  { rewrite <- plus_IZR, <- ln_Rpower2, <- ln_mult by (try apply Rpower2_pos; assumption).
    apply ln_increasing; assumption. }
  pose proof ln2_pos as H2.
  unfold log2R.
  replace (IZR (Z.pos k) * (ln (Q2R x) / ln 2))
    with ((IZR (Z.pos k) * ln (Q2R x)) / ln 2) by (field; lra).
  rewrite Hk. split.
  - apply Rmult_le_reg_r with (ln 2); [exact H2 |].
    unfold Rdiv. rewrite Rmult_assoc, Rinv_l by lra. lra.
  - apply Rmult_lt_reg_r with (ln 2); [exact H2 |].
    unfold Rdiv. rewrite Rmult_assoc, Rinv_l by lra. lra.
Qed.

End FloorLog2.

(** ** The classifier *)

Section Classifier.

Lemma TUNING_FREQUENCIES_pos (n : PitchClass) : 0 < TUNING_FREQUENCIES n.
Proof. destruct n; reflexivity. Qed.

Lemma Object_keys_complete (n : PitchClass) : In n Object_keys.
Proof. destruct n; simpl; tauto. Qed.

Lemma lt_minDiff_Some (diff m : Q) :
  lt_minDiff diff (Some m) = true <-> diff < m.
Proof.
  simpl. rewrite negb_true_iff.
  split; intros H.
  - apply Qnot_le_lt. intros Hle. apply Qle_bool_iff in Hle. congruence.
  - destruct (Qle_bool m diff) eqn:E; [| reflexivity].
    apply Qle_bool_iff in E. exfalso. exact (Qlt_not_le _ _ H E).
Qed.

Lemma search_step (f : Q) (seen : list PitchClass) (st : PitchClass * option Q)
    (note : PitchClass) :
  search_invariant f seen st ->
  search_invariant f (seen ++ [note]) (closest_step f st note).
Proof.
  destruct st as [best [d |]]; unfold search_invariant, closest_step; cbn [snd fst].
  - intros [Hd (before & after & Hseen & Hbefore & Hafter)].
    destruct (lt_minDiff (Qabs (f - TUNING_FREQUENCIES note)) (Some d)) eqn:Hlt;
      cbn [snd fst].
    + apply lt_minDiff_Some in Hlt.
      split; [reflexivity |].
      exists seen, []. split; [reflexivity |]. split; [| intros m []].
      intros m Hm. rewrite Hseen in Hm.
      apply in_app_or in Hm. destruct Hm as [Hm | [<- | Hm]].
      * eapply Qlt_trans; [exact Hlt |]. rewrite Hd. apply Hbefore, Hm.
      * rewrite <- Hd. exact Hlt.
      * eapply Qlt_le_trans; [exact Hlt |]. rewrite Hd. apply Hafter, Hm.
    + split; [exact Hd |].
      exists before, (after ++ [note]). split.
      * rewrite Hseen, <- app_assoc. reflexivity.
      * split; [exact Hbefore |].
        intros m Hm. apply in_app_or in Hm. destruct Hm as [Hm | [<- | []]].
        -- apply Hafter, Hm.
        -- rewrite <- Hd. simpl in Hlt.
           apply negb_false_iff, Qle_bool_iff in Hlt. exact Hlt.
  - intros ->. split; [reflexivity |].
    exists [], []. split; [reflexivity |]. split; intros m [].
Qed.

Lemma search_fold (f : Q) (l seen : list PitchClass) (st : PitchClass * option Q) :
  search_invariant f seen st ->
  search_invariant f (seen ++ l) (fold_left (closest_step f) l st).
Proof.
  revert seen st. induction l as [| note l IH]; intros seen st Hinv.
  - rewrite app_nil_r. exact Hinv.
  - simpl. replace (seen ++ note :: l) with ((seen ++ [note]) ++ l)
      by (rewrite <- app_assoc; reflexivity).
    apply IH, search_step, Hinv.
Qed.

(** The search returns the first key at the least distance. *)
Lemma closestNote_first_minimum (f : Q) :
  first_minimum f Object_keys (closestNote f).
Proof.
  unfold closestNote.
  pose proof (search_fold f Object_keys [] (hd E2 Object_keys, None) eq_refl) as H.
  unfold search_invariant in H.
  destruct (snd (fold_left (closest_step f) Object_keys (hd E2 Object_keys, None))).
  - exact (proj2 H).
  - discriminate H.
Qed.

Lemma first_minimum_least (f : Q) (n m : PitchClass) :
  first_minimum f Object_keys n ->
  Qabs (f - TUNING_FREQUENCIES n) <= Qabs (f - TUNING_FREQUENCIES m).
Proof.
  intros (before & after & Hkeys & Hbefore & Hafter).
  pose proof (Object_keys_complete m) as Hm. rewrite Hkeys in Hm.
  apply in_app_or in Hm. destruct Hm as [Hm | [<- | Hm]].
  - apply Qlt_le_weak, Hbefore, Hm.
  - apply Qle_refl.
  - apply Hafter, Hm.
Qed.

Lemma getNoteAndCents_pos (f : Q) :
  0 < f ->
  getNoteAndCents f
  = mkTuningResult (key_string (closestNote f))
      (floor_scaled_log2 1200 (f / TUNING_FREQUENCIES (closestNote f))).
Proof.
  intros Hf. unfold getNoteAndCents.
  destruct (Qle_bool f 0) eqn:E; [| reflexivity].
  apply Qle_bool_iff in E. exfalso. exact (Qlt_not_le _ _ Hf E).
Qed.

Lemma getNoteAndCents_nonpos (f : Q) :
  f <= 0 -> getNoteAndCents f = mkTuningResult "--" 0.
Proof.
  intros Hf. unfold getNoteAndCents.
  apply Qle_bool_iff in Hf. rewrite Hf. reflexivity.
Qed.

End Classifier.

(** In exact arithmetic: at the midpoint of E2 and A2 the two distances
    are equal and the earlier key wins. *)
Example tie_goes_to_first_key :
  Qabs (96.205 - TUNING_FREQUENCIES E2) == Qabs (96.205 - TUNING_FREQUENCIES A2) /\
  getNoteAndCents 96.205 = mkTuningResult "E2" 267.
Proof. split; vm_compute; reflexivity. Qed.

Example far_above_range : getNoteAndCents 1000 = mkTuningResult "E4" 1921.
Proof. vm_compute. reflexivity. Qed.

Example octave_of_A2 : getNoteAndCents 220.00 = mkTuningResult "G3" 199.
Proof. vm_compute. reflexivity. Qed.

(** ** Cents against the real logarithm *)

Section Cents.
Local Open Scope R_scope.


Lemma exp_le_iff (a b : R) : exp a <= exp b <-> a <= b.
Proof.
  split; intros H.
  - apply Rnot_lt_le. intros Hlt. apply exp_increasing in Hlt. lra.
  - destruct H as [H | ->]; [left; now apply exp_increasing | right; reflexivity].
Qed.


(** [y <= 1200 * log2 x] read on [x]. *)
Lemma scaled_log2R_ge (x y : R) :
  0 < x -> (y <= 1200 * log2R x <-> Rpower 2 (y / 1200) <= x).
Proof.
  intros Hx. pose proof ln2_pos as H2.
  unfold Rpower. rewrite <- (exp_ln x Hx) at 2. rewrite exp_le_iff.
  unfold log2R.
  replace (1200 * (ln x / ln 2)) with ((1200 * ln x) / ln 2) by (field; lra).
  split; intros H.
  - apply Rmult_le_compat_r with (r := ln 2) in H; [| lra].
    unfold Rdiv in H at 1. rewrite Rmult_assoc, Rinv_l in H by lra. lra.
  - apply Rmult_le_reg_r with (ln 2); [exact H2 |].
    unfold Rdiv at 1. rewrite Rmult_assoc, Rinv_l by lra. lra.
Qed.


Lemma Q2R_pos (q : Q) : (0 < q)%Q -> 0 < Q2R q.
Proof. intros H. apply Qlt_Rlt in H. rewrite RMicromega.Q2R_0 in H. exact H. Qed.




End Cents.

Example flat_by_52_cents : getNoteAndCents 80 = mkTuningResult "E2" (-52).
Proof. vm_compute. reflexivity. Qed.

(** ** One tick *)

Section Tick.

(** Runs [updatePitch] on a state whose guard passes, given the
    detector's answer. *)
Ltac run_updatePitch s Hact He :=
  destruct Hact as [Ha Hp];
  destruct s as [d r p h]; destruct r as [? ? an ? ? pf ? ?], h;
  simpl in Ha, Hp, He |- *;
  unfold updatePitch, bind, gets; simpl;
  destruct an; [| contradiction]; destruct pf; [| contradiction];
  simpl; rewrite He; reflexivity.

Lemma updatePitch_number (s : Tuner) (t : Tick) (f : Q) :
  active s -> estimate t = EstNumber f ->
  let sm := smoothed (smoothingRef (refs s)) (previousPitch s) f in
  let r := getNoteAndCents sm in
  let chart := chartDataRef (refs s) ++ [mkDataPoint (now t) sm (tr_note r)] in
  updatePitch t s =
  (Normal tt,
   mkTuner
     (mkDisplay (tr_note r) (tr_cents r) (status (display s))
                (playing (display s)) chart)
     (mkRefs (audioContextRef (refs s)) (audioSourceRef (refs s))
             (analyserRef (refs s)) (Some (nextFrameId (host s)))
             (smoothingRef (refs s)) (pitchFinderRef (refs s))
             (playContextRef (refs s)) chart)
     sm
     (mkHost (frameQueue (host s) ++ [nextFrameId (host s)])
             (S (nextFrameId (host s))) (nextObject (host s))
             (timers (host s)) (hostCalls (host s)))).
Proof.
  intros Hact He. run_updatePitch s Hact He.
Qed.

Lemma updatePitch_null (s : Tuner) (t : Tick) :
  active s -> estimate t = EstNull ->
  let chart := chartDataRef (refs s) ++ [mkDataPoint (now t) 0 "--"] in
  updatePitch t s =
  (Normal tt,
   mkTuner
     (mkDisplay "--" 0 (status (display s)) (playing (display s)) chart)
     (mkRefs (audioContextRef (refs s)) (audioSourceRef (refs s))
             (analyserRef (refs s)) (Some (nextFrameId (host s)))
             (smoothingRef (refs s)) (pitchFinderRef (refs s))
             (playContextRef (refs s)) chart)
     0
     (mkHost (frameQueue (host s) ++ [nextFrameId (host s)])
             (S (nextFrameId (host s))) (nextObject (host s))
             (timers (host s)) (hostCalls (host s)))).
Proof.
  intros Hact He. run_updatePitch s Hact He.
Qed.

Lemma updatePitch_throws (s : Tuner) (t : Tick) (message : string) :
  active s -> estimate t = EstThrows message ->
  updatePitch t s = (Throw message, s).
Proof.
  intros Hact He. run_updatePitch s Hact He.
Qed.

Lemma updatePitch_inactive (s : Tuner) (t : Tick) :
  analyserRef (refs s) = None \/ pitchFinderRef (refs s) = None ->
  updatePitch t s = (Normal tt, s).
Proof.
  intros H. destruct s as [d r p h]. destruct r as [? ? an ? ? pf ? ?], h.
  simpl in H |- *. unfold updatePitch, bind, gets. simpl.
  destruct H as [-> | ->]; [reflexivity |].
  destruct an; reflexivity.
Qed.

End Tick.

(** ** The loop *)

Section Loop.

Lemma animationFrame_pending (s : Tuner) (t : Tick) (id : nat) (rest : list nat) :
  frameQueue (host s) = id :: rest ->
  animationFrame t s = snd (updatePitch t (pop_frame s rest)).
Proof. intros H. unfold animationFrame. rewrite H. reflexivity. Qed.

Lemma animationFrame_idle (s : Tuner) (t : Tick) :
  frameQueue (host s) = [] -> animationFrame t s = s.
Proof. intros H. unfold animationFrame. rewrite H. reflexivity. Qed.

Lemma frames_idle (ts : list Tick) (s : Tuner) :
  frameQueue (host s) = [] -> frames ts s = s.
Proof.
  intros H. induction ts as [| t ts IH]; [reflexivity |].
  unfold frames in *. simpl. rewrite animationFrame_idle by exact H. exact IH.
Qed.

Lemma frames_app (ts more : list Tick) (s : Tuner) :
  frames (ts ++ more) s = frames more (frames ts s).
Proof. unfold frames. apply fold_left_app. Qed.

Lemma active_pop_frame (s : Tuner) (rest : list nat) :
  active s -> active (pop_frame s rest).
Proof. intros H. exact H. Qed.

(** A tick whose detector returns appends one point and requests the
    next frame. *)
Lemma frame_appends (s : Tuner) (t : Tick) :
  running s -> completes t ->
  exists p,
    chartDataRef (refs (animationFrame t s)) = chartDataRef (refs s) ++ [p] /\
    time p = now t /\
    (estimate t = EstNull -> p = mkDataPoint (now t) 0 "--") /\
    running (animationFrame t s).
Proof.
  intros [Hact [id Hq]] Hc.
  rewrite (animationFrame_pending s t id [] Hq).
  unfold completes in Hc. destruct (estimate t) as [| f | m] eqn:He; [| | contradiction].
  - rewrite (updatePitch_null _ t (active_pop_frame s [] Hact) He). simpl.
    eexists. repeat split; try reflexivity; try apply Hact.
    eexists. reflexivity.
  - rewrite (updatePitch_number _ t f (active_pop_frame s [] Hact) He). simpl.
    eexists. repeat split; try reflexivity; try apply Hact.
    + discriminate.
    + eexists. reflexivity.
Qed.

Lemma frames_append (ts : list Tick) (s : Tuner) :
  running s -> Forall completes ts ->
  exists ps,
    chartDataRef (refs (frames ts s)) = chartDataRef (refs s) ++ ps /\
    map time ps = map now ts /\
    Forall2 (fun t p => estimate t = EstNull -> p = mkDataPoint (now t) 0 "--") ts ps /\
    running (frames ts s).
Proof.
  revert s. induction ts as [| t ts IH]; intros s Hrun Hall.
  - exists []. rewrite app_nil_r.
    split; [reflexivity |]. split; [reflexivity |]. split; [constructor | exact Hrun].
  - inversion Hall as [| ? ? Ht Hts]; subst.
    destruct (frame_appends s t Hrun Ht) as (p & Hp & Htime & Hnull & Hrun').
    destruct (IH (animationFrame t s) Hrun' Hts) as (ps & Hps & Htimes & Hnulls & Hrun'').
    exists (p :: ps). unfold frames in *. simpl.
    rewrite Hps, Hp, <- app_assoc. simpl.
    split; [reflexivity |]. split; [| split; [constructor; assumption | exact Hrun'']].
    rewrite Htime, Htimes. reflexivity.
Qed.

(** The state after a granted microphone and a first tick whose
    detector returns. *)
Lemma first_tick (first : Tick) :
  completes first ->
  let s := snd (initializePitchDetection (Granted 48000) first initial) in
  exists p,
    chartDataRef (refs s) = [p] /\
    time p = now first /\
    (estimate first = EstNull -> p = mkDataPoint (now first) 0 "--") /\
    running s.
Proof.
  intros Hc. unfold completes in Hc.
  unfold initializePitchDetection, try_catch, bind, updatePitch, bind, gets. simpl.
  destruct (estimate first) as [| f | m] eqn:He; [| | contradiction]; simpl.
  - eexists. split; [reflexivity |]. split; [reflexivity |]. split; [reflexivity |].
    split; [split; discriminate | eexists; reflexivity].
  - eexists. split; [reflexivity |]. split; [reflexivity |]. split; [discriminate |].
    split; [split; discriminate | eexists; reflexivity].
Qed.

Lemma session_history (ts : list Tick) :
  Forall completes ts ->
  exists ps,
    chartDataRef (refs (session ts)) = ps /\
    map time ps = map now ts /\
    Forall2 (fun t p => estimate t = EstNull -> p = mkDataPoint (now t) 0 "--") ts ps /\
    (ts <> [] -> running (session ts)).
Proof.
  intros Hall. destruct ts as [| first rest].
  - exists []. split; [reflexivity |]. split; [reflexivity |].
    split; [constructor | congruence].
  - inversion Hall as [| ? ? Hf Hr]; subst.
    destruct (first_tick first Hf) as (p & Hp & Htime & Hnull & Hrun).
    destruct (frames_append rest _ Hrun Hr) as (ps & Hps & Htimes & Hnulls & Hrun').
    exists (p :: ps). unfold session. rewrite Hps, Hp. simpl.
    split; [reflexivity |]. split; [| split; [constructor; assumption | intros _; exact Hrun']].
    rewrite Htime, Htimes. reflexivity.
Qed.

End Loop.

Lemma Forall2_nth_error_l {A B : Type} (R : A -> B -> Prop) (l : list A) (l' : list B) :
  Forall2 R l l' ->
  forall i a, nth_error l i = Some a -> exists b, nth_error l' i = Some b /\ R a b.
Proof.
  induction 1 as [| x y l l' Hxy _ IH]; intros i a Hi.
  - destruct i; discriminate.
  - destruct i as [| i]; simpl in *.
    + injection Hi as <-. exists y. split; [reflexivity | exact Hxy].
    + apply IH, Hi.
Qed.

Lemma session_app_running (ts more : list Tick) :
  ts <> [] -> session (ts ++ more) = frames more (session ts).
Proof.
  destruct ts as [| first rest]; [congruence |]. intros _.
  simpl. apply frames_app.
Qed.

(** The smoothing coefficient is never written: it is 0.7 throughout
    every session. *)
Lemma updatePitch_smoothingRef (t : Tick) (s : Tuner) :
  smoothingRef (refs (snd (updatePitch t s))) = smoothingRef (refs s).
Proof.
  destruct (analyserRef (refs s)) eqn:Ha;
    [destruct (pitchFinderRef (refs s)) eqn:Hp |].
  - assert (Hact : active s) by (split; congruence).
    destruct (estimate t) as [| f | m] eqn:He.
    + rewrite (updatePitch_null s t Hact He). reflexivity.
    + rewrite (updatePitch_number s t f Hact He). reflexivity.
    + rewrite (updatePitch_throws s t m Hact He). reflexivity.
  - rewrite updatePitch_inactive by (right; exact Hp). reflexivity.
  - rewrite updatePitch_inactive by (left; exact Ha). reflexivity.
Qed.

Lemma frames_smoothingRef (ts : list Tick) (s : Tuner) :
  smoothingRef (refs (frames ts s)) = smoothingRef (refs s).
Proof.
  revert s. induction ts as [| t ts IH]; intros s; [reflexivity |].
  unfold frames in *. simpl. rewrite IH.
  unfold animationFrame. destruct (frameQueue (host s)); [reflexivity |].
  rewrite updatePitch_smoothingRef. reflexivity.
Qed.

Lemma session_smoothingRef (ts : list Tick) :
  smoothingRef (refs (session ts)) = 0.7.
Proof.
  destruct ts as [| first rest]; [reflexivity |].
  unfold session. rewrite frames_smoothingRef.
  unfold initializePitchDetection, try_catch, bind, updatePitch, bind, gets. simpl.
  destruct (estimate first); reflexivity.
Qed.

(** C4, as the program has it.  A tick whose detector returns null
    resets the stored value to 0.  A tick whose detector returns a
    number, of any sign, stores the smoothed value. *)
Theorem smoothing_state_after_tick (s : Tuner) (t : Tick) :
  active s ->
  (estimate t = EstNull -> previousPitch (snd (updatePitch t s)) = 0) /\
  (forall f, estimate t = EstNumber f ->
     previousPitch (snd (updatePitch t s))
     = smoothed (smoothingRef (refs s)) (previousPitch s) f).
Proof.
  intros Hact. split.
  - intros He. rewrite (updatePitch_null s t Hact He). reflexivity.
  - intros f He. rewrite (updatePitch_number s t f Hact He). reflexivity.
Qed.

Lemma smoothing_state_after_tick_witness :
  let s := session [mkTick 0 (EstNumber 100)] in
  active s /\
  previousPitch (snd (updatePitch (mkTick 16 EstNull) s)) = 0 /\
  previousPitch (snd (updatePitch (mkTick 16 (EstNumber 200)) s))
  = smoothed 0.7 100 200.
Proof.
  intros s.
  assert (Hact : active s) by (split; discriminate).
  split; [exact Hact |]. split.
  - apply (proj1 (smoothing_state_after_tick s (mkTick 16 EstNull) Hact)). reflexivity.
  - apply (proj2 (smoothing_state_after_tick s (mkTick 16 (EstNumber 200)) Hact)).
    reflexivity.
Defined.

(** C4 as stated fails: the estimate 0, a number at or below zero,
    after a stored value of 100 leaves 70 in the smoothing state. *)
Lemma zero_estimate_does_not_reset :
  let s := session [mkTick 0 (EstNumber 100)] in
  let t := mkTick 16 (EstNumber 0) in
  active s /\ estimate t = EstNumber 0 /\ 0 <= 0 /\
  previousPitch (snd (updatePitch t s)) == 70 /\
  ~ previousPitch (snd (updatePitch t s)) == 0.
Proof.
  intros s t. split; [split; discriminate |]. split; [reflexivity |].
  split; [discriminate |]. split; [reflexivity | discriminate].
Qed.

(** C5, as the program has it.  The detector returning null is the one
    failure a tick absorbs: such a tick, like one with an estimate,
    leaves the loop running.  A tick whose detector throws throws
    itself before it touches anything: no point is appended, the shown
    note and the smoothing state stay, no frame is requested, and every
    later frame does nothing. *)
Theorem throwing_tick_halts_loop (s : Tuner) (t : Tick) :
  running s ->
  (completes t -> running (animationFrame t s)) /\
  (forall message, estimate t = EstThrows message ->
     updatePitch t s = (Throw message, s) /\
     let s' := animationFrame t s in
     chartDataRef (refs s') = chartDataRef (refs s) /\
     display s' = display s /\
     previousPitch s' = previousPitch s /\
     frameQueue (host s') = [] /\
     forall later, frames later s' = s').
Proof.
  intros Hrun. split.
  - intros Hc. destruct (frame_appends s t Hrun Hc) as (p & _ & _ & _ & H). exact H.
  - intros message He. destruct Hrun as [Hact [id Hq]].
    split; [apply updatePitch_throws; assumption |].
    intros s'. subst s'.
    rewrite (animationFrame_pending s t id [] Hq).
    rewrite (updatePitch_throws _ t message (active_pop_frame s [] Hact) He).
    cbn [snd]. repeat split.
    intros later. apply frames_idle. reflexivity.
Qed.

Lemma throwing_tick_halts_loop_witness :
  let s := session [mkTick 0 EstNull] in
  let t := mkTick 16 (EstThrows "boom") in
  running s /\
  running (animationFrame (mkTick 16 EstNull) s) /\
  updatePitch t s = (Throw "boom", s) /\
  frameQueue (host (animationFrame t s)) = [] /\
  frames [mkTick 33 (EstNumber 110)] (animationFrame t s) = animationFrame t s.
Proof.
  intros s t.
  assert (Hrun : running s).
  { split; [split; discriminate | exists 1%nat; reflexivity]. }
  destruct (throwing_tick_halts_loop s (mkTick 16 EstNull) Hrun) as [Hnull _].
  destruct (throwing_tick_halts_loop s t Hrun) as [_ Hthrow].
  destruct (Hthrow "boom" eq_refl) as (Hup & _ & _ & _ & Hq & Hlater).
  split; [exact Hrun |]. split; [apply Hnull; exact I |].
  split; [exact Hup |]. split; [exact Hq | apply Hlater].
Defined.

(** C5 as stated fails: after a tick whose detector throws, no frame
    is requested, and the state is not the one a tick without a pitch
    leaves. *)
Lemma throwing_estimator_stops_the_loop :
  let s := session [mkTick 0 (EstNumber 110)] in
  let thrown := animationFrame (mkTick 16 (EstThrows "boom")) s in
  let missed := animationFrame (mkTick 16 EstNull) s in
  running s /\
  frameQueue (host thrown) = [] /\
  frameQueue (host missed) = [2%nat] /\
  note (display thrown) = "A2" /\ note (display missed) = "--" /\
  List.length (chartDataRef (refs thrown)) = 1%nat /\
  List.length (chartDataRef (refs missed)) = 2%nat.
Proof.
  intros s thrown missed.
  split; [split; [split; discriminate | exists 1%nat; reflexivity] |].
  vm_compute. repeat split.
Qed.

(** The first tick runs inside the [try] of [initializePitchDetection]:
    a detector that throws there is reported as a microphone error, and
    the loop never starts. *)
Lemma first_tick_throw_is_reported (message : string) (now0 : Z) :
  let s := snd (initializePitchDetection (Granted 48000)
                  (mkTick now0 (EstThrows message)) initial) in
  status (display s) = ("Error accessing microphone: " ++ message)%string /\
  frameQueue (host s) = [] /\ chartDataRef (refs s) = [].
Proof. repeat split. Qed.

(** C7, as the program has it.  After [N] ticks none of which throws,
    the chart holds [N] points, the [i]-th with the clock value read by the [i]-th tick, so
    in non-decreasing order of time when the clock does not go back; a
    tick without a pitch contributes frequency 0 and the placeholder
    note; and further ticks only append: the points already there stay
    as they are, at the front. *)
Theorem history_is_append_only (ts more : list Tick) :
  Forall completes ts -> Forall completes more ->
  let h := chartDataRef (refs (session ts)) in
  List.length h = List.length ts /\
  map time h = map now ts /\
  (nondecreasing (map now ts) -> nondecreasing (map time h)) /\
  (forall i t, nth_error ts i = Some t -> estimate t = EstNull ->
     nth_error h i = Some (mkDataPoint (now t) 0 "--")) /\
  (exists ps, chartDataRef (refs (session (ts ++ more))) = h ++ ps /\
              List.length ps = List.length more).
Proof.
  intros Hts Hmore h.
  destruct (session_history ts Hts) as (ps & Hps & Htimes & Hnulls & Hrun).
  fold h in Hps. subst ps.
  split.
  { rewrite <- (length_map time h), Htimes. apply length_map. }
  split; [exact Htimes |].
  split; [rewrite Htimes; tauto |].
  split.
  { intros i t Hi He.
    destruct (Forall2_nth_error_l _ _ _ Hnulls i t Hi) as (p & Hp & Hpt).
    rewrite Hp, (Hpt He). reflexivity. }
  destruct ts as [| first rest].
  - destruct (session_history more Hmore) as (ps & Hps & Htm & _ & _).
    exists ps. split; [exact Hps |].
    rewrite <- (length_map time ps), Htm. apply length_map.
  - rewrite session_app_running by discriminate.
    destruct (frames_append more _ (Hrun ltac:(discriminate)) Hmore)
      as (ps & Hps & Htm & _ & _).
    exists ps. split; [exact Hps |].
    rewrite <- (length_map time ps), Htm. apply length_map.
Qed.

Lemma history_is_append_only_witness :
  let ts := [mkTick 5 EstNull; mkTick 21 (EstNumber 110); mkTick 38 EstNull] in
  let more := [mkTick 55 (EstNumber 111)] in
  let h := chartDataRef (refs (session ts)) in
  Forall completes ts /\ Forall completes more /\
  List.length h = 3%nat /\
  map time h = [5; 21; 38]%Z /\
  nth_error h 2 = Some (mkDataPoint 38 0 "--") /\
  (exists ps, chartDataRef (refs (session (ts ++ more))) = h ++ ps /\
              List.length ps = 1%nat).
Proof.
  intros ts more h.
  assert (Hts : Forall completes ts) by (repeat constructor).
  assert (Hmore : Forall completes more) by (repeat constructor).
  destruct (history_is_append_only ts more Hts Hmore) as (Hlen & Htimes & _ & Hnull & Happ).
  split; [exact Hts |]. split; [exact Hmore |].
  split; [exact Hlen |]. split; [exact Htimes |].
  split; [apply (Hnull 2%nat (mkTick 38 EstNull)); reflexivity | exact Happ].
Defined.

(** C7 as stated fails.  Of three ticks the second of which throws,
    only the first leaves a point on the chart: the loop ends at the
    throw.  And the points carry the clock values as read: a clock that
    reads 5 and then 3 gives a chart that is not in order of time. *)
Lemma history_stops_at_a_throw :
  let ts := [mkTick 5 EstNull; mkTick 21 (EstThrows "detector");
             mkTick 38 (EstNumber 110)] in
  let back := [mkTick 5 EstNull; mkTick 3 EstNull] in
  List.length ts = 3%nat /\
  chartDataRef (refs (session ts)) = [mkDataPoint 5 0 "--"] /\
  map time (chartDataRef (refs (session back))) = [5; 3]%Z /\
  ~ nondecreasing (map time (chartDataRef (refs (session back)))).
Proof.
  intros ts back.
  split; [reflexivity |]. split; [reflexivity |]. split; [reflexivity |].
  intros H. specialize (H 0%nat 1%nat 5%Z 3%Z).
  assert (Hle : (5 <= 3)%Z) by (apply H; [lia | reflexivity | reflexivity]).
  lia.
Qed.

(** C9, as the program has it.  The raw estimates none, 82.41, 82.0,
    82.41 with coefficient 0.7 give the chart frequencies 0, 82.41,
    82.287 and 82.3239, the notes placeholder, E2, E2, E2, and the
    cents 0, 0, -3 and -2. *)
Theorem scenario_outcome (t0 t1 t2 t3 : Z) :
  let h := chartDataRef (refs (session (scenario t0 t1 t2 t3))) in
  map time h = [t0; t1; t2; t3] /\
  map (fun p => Qred (frequency p)) h = [0; 82.41; 82.287; 82.3239] /\
  map dp_note h = ["--"; "E2"; "E2"; "E2"] /\
  shown (scenario t0 t1 t2 t3)
  = [("--", 0%Z); ("E2", 0%Z); ("E2", (-3)%Z); ("E2", (-2)%Z)].
Proof. vm_compute. repeat split. Qed.

(** C9 as stated fails: the fourth chart frequency is 82.3239, not
    82.3671. *)
Lemma scenario_fourth_value :
  let h := chartDataRef (refs (session (scenario 0 16 33 50))) in
  ~ Forall2 Qeq (map frequency h) [0; 82.41; 82.287; 82.3671].
Proof.
  intros h H. vm_compute in H.
  inversion H as [| ? ? ? ? _ H1]; subst.
  inversion H1 as [| ? ? ? ? _ H2]; subst.
  inversion H2 as [| ? ? ? ? _ H3]; subst.
  inversion H3 as [| ? ? ? ? H4 _]; subst.
  discriminate H4.
Qed.

(** ** Teardown *)

Section Teardown.

Variable throws : HostCall -> bool.

Lemma hostCalls_host_effect (c : HostCall) (h : Host) :
  hostCalls (host_effect c h) = hostCalls h.
Proof. destruct c; reflexivity. Qed.

Lemma hostCall_ok (c : HostCall) (s : Tuner) :
  throws c = false ->
  exists s', hostCall throws c s = (Normal tt, s') /\
             refs s' = refs s /\
             hostCalls (host s') = hostCalls (host s) ++ [c].
Proof.
  intros H. unfold hostCall. rewrite H. eexists. split; [reflexivity |].
  split; [reflexivity |]. simpl. rewrite hostCalls_host_effect. reflexivity.
Qed.

Lemma hostCall_throws (c : HostCall) (s : Tuner) :
  throws c = true ->
  exists s', hostCall throws c s = (Throw "host call failed", s') /\
             refs s' = refs s /\
             hostCalls (host s') = hostCalls (host s) ++ [c].
Proof.
  intros H. unfold hostCall. rewrite H. eexists. split; [reflexivity |].
  split; [reflexivity |]. simpl. rewrite hostCalls_host_effect. reflexivity.
Qed.

Lemma run_calls_refs (cs : list HostCall) (s : Tuner) :
  refs (snd (run_calls throws cs s)) = refs s.
Proof.
  revert s. induction cs as [| c cs IH]; intros s; [reflexivity |].
  simpl. unfold bind.
  destruct (throws c) eqn:E.
  - destruct (hostCall_throws c s E) as (s' & -> & Hr & _). exact Hr.
  - destruct (hostCall_ok c s E) as (s' & -> & Hr & _). rewrite IH. exact Hr.
Qed.

Lemma run_calls_ok (cs : list HostCall) (s : Tuner) :
  (forall c, In c cs -> throws c = false) ->
  fst (run_calls throws cs s) = Normal tt /\
  hostCalls (host (snd (run_calls throws cs s))) = hostCalls (host s) ++ cs.
Proof.
  revert s. induction cs as [| c cs IH]; intros s Hall.
  - simpl. rewrite app_nil_r. split; reflexivity.
  - simpl. unfold bind.
    destruct (hostCall_ok c s (Hall c (or_introl eq_refl))) as (s' & -> & _ & Hc).
    destruct (IH s' (fun c' H => Hall c' (or_intror H))) as [Hn Hcalls].
    split; [exact Hn |]. rewrite Hcalls, Hc, <- app_assoc. reflexivity.
Qed.

Lemma run_calls_abort (before after : list HostCall) (c : HostCall) (s : Tuner) :
  (forall b, In b before -> throws b = false) -> throws c = true ->
  fst (run_calls throws (before ++ c :: after) s) = Throw "host call failed" /\
  hostCalls (host (snd (run_calls throws (before ++ c :: after) s)))
  = hostCalls (host s) ++ before ++ [c].
Proof.
  revert s. induction before as [| b before IH]; intros s Hall Hc.
  - simpl. unfold bind.
    destruct (hostCall_throws c s Hc) as (s' & -> & _ & Hcalls).
    split; [reflexivity | exact Hcalls].
  - simpl. unfold bind.
    destruct (hostCall_ok b s (Hall b (or_introl eq_refl))) as (s' & -> & _ & Hb).
    destruct (IH s' (fun b' H => Hall b' (or_intror H)) Hc) as [Hn Hcalls].
    split; [exact Hn |]. rewrite Hcalls, Hb, <- app_assoc. reflexivity.
Qed.

(** [cleanup] makes the release calls of the refs that are set, one
    after the other. *)
Lemma cleanup_runs_releases (s : Tuner) :
  cleanup throws s = run_calls throws (releases (refs s)) s.
Proof.
  destruct s as [d r p h].
  destruct r as [ctx src an fr sm pf pc ch].
  unfold cleanup, releases, bind, gets, ret, hostCall.
  destruct src, an, ctx, fr as [[| id] |], pc;
    repeat (simpl; unfold bind, ret, hostCall; simpl;
            match goal with
            | |- context [throws ?c] => destruct (throws c)
            end);
    reflexivity.
Qed.

End Teardown.

(** C6, as the program has it.  With no ref set, as before the
    microphone was granted, teardown makes no call and returns.
    Teardown never changes a ref.  When no release call throws,
    teardown returns after making the release call of each ref that is
    set, in the order of the source, skipping the refs that are not
    set; invoked again it returns again, after making the same calls a
    second time.  When a release call throws, teardown throws and has
    made the calls up to that one only. *)
Theorem teardown_releases (throws : HostCall -> bool) (s : Tuner) :
  (releases (refs s) = [] -> cleanup throws s = (Normal tt, s)) /\
  refs (snd (cleanup throws s)) = refs s /\
  ((forall c, In c (releases (refs s)) -> throws c = false) ->
     let s1 := snd (cleanup throws s) in
     let s2 := snd (cleanup throws s1) in
     fst (cleanup throws s) = Normal tt /\
     hostCalls (host s1) = hostCalls (host s) ++ releases (refs s) /\
     fst (cleanup throws s1) = Normal tt /\
     hostCalls (host s2) = hostCalls (host s1) ++ releases (refs s)) /\
  (forall before c after,
     releases (refs s) = before ++ c :: after ->
     (forall b, In b before -> throws b = false) -> throws c = true ->
     fst (cleanup throws s) = Throw "host call failed" /\
     hostCalls (host (snd (cleanup throws s))) = hostCalls (host s) ++ before ++ [c]).
Proof.
  assert (Hrefs : forall s0, refs (snd (cleanup throws s0)) = refs s0).
  { intros s0. rewrite cleanup_runs_releases. apply run_calls_refs. }
  split.
  { intros H. rewrite cleanup_runs_releases, H. reflexivity. }
  split; [apply Hrefs |].
  split.
  - intros Hall s1 s2.
    destruct (run_calls_ok throws (releases (refs s)) s Hall) as [Hn Hc].
    rewrite <- cleanup_runs_releases in Hn, Hc.
    split; [exact Hn |]. split; [exact Hc |].
    assert (Hr1 : refs s1 = refs s) by apply Hrefs.
    assert (Hall1 : forall c, In c (releases (refs s1)) -> throws c = false)
      by (rewrite Hr1; exact Hall).
    destruct (run_calls_ok throws (releases (refs s1)) s1 Hall1) as [Hn1 Hc1].
    rewrite <- cleanup_runs_releases in Hn1, Hc1. rewrite Hr1 in Hc1.
    split; assumption.
  - intros before c after Hrel Hall Hc.
    rewrite cleanup_runs_releases, Hrel.
    apply run_calls_abort; assumption.
Qed.

Lemma teardown_releases_witness :
  let s := session [mkTick 0 EstNull] in
  let fails := fun c => match c with CloseContext _ => true | _ => false end in
  cleanup never_throws initial = (Normal tt, initial) /\
  (fst (cleanup never_throws s) = Normal tt /\
   hostCalls (host (snd (cleanup never_throws s)))
   = [Disconnect 1; Disconnect 2; CloseContext 0; CancelAnimationFrame 1] /\
   hostCalls (host (snd (cleanup never_throws (snd (cleanup never_throws s)))))
   = [Disconnect 1; Disconnect 2; CloseContext 0; CancelAnimationFrame 1;
      Disconnect 1; Disconnect 2; CloseContext 0; CancelAnimationFrame 1]) /\
  (fst (cleanup fails s) = Throw "host call failed" /\
   hostCalls (host (snd (cleanup fails s)))
   = [Disconnect 1; Disconnect 2; CloseContext 0]).
Proof.
  intros s fails. split; [| split].
  - apply (proj1 (teardown_releases never_throws initial)). reflexivity.
  - destruct (teardown_releases never_throws s) as (_ & _ & Hok & _).
    destruct (Hok (fun c _ => eq_refl)) as (Hn & Hc & _ & Hc2).
    split; [exact Hn |]. split; [exact Hc |].
    rewrite Hc2, Hc. reflexivity.
  - destruct (teardown_releases fails s) as (_ & _ & _ & Hthrow).
    apply (Hthrow [Disconnect 1; Disconnect 2] (CloseContext 0)
                  [CancelAnimationFrame 1]).
    + reflexivity.
    + intros b [<- | [<- | []]]; reflexivity.
    + reflexivity.
Defined.

(** C6 as stated fails: when the first release throws, the others are
    not attempted and the requested frame stays in the queue; and a
    second teardown repeats every release call of the first. *)
Lemma failed_release_skips_the_rest :
  let s := session [mkTick 0 EstNull] in
  let fails := fun c => match c with Disconnect 1 => true | _ => false end in
  releases (refs s)
  = [Disconnect 1; Disconnect 2; CloseContext 0; CancelAnimationFrame 1] /\
  fst (cleanup fails s) = Throw "host call failed" /\
  hostCalls (host (snd (cleanup fails s))) = [Disconnect 1] /\
  frameQueue (host (snd (cleanup fails s))) = [1%nat] /\
  hostCalls (host (snd (cleanup never_throws (snd (cleanup never_throws s)))))
  = [Disconnect 1; Disconnect 2; CloseContext 0; CancelAnimationFrame 1;
     Disconnect 1; Disconnect 2; CloseContext 0; CancelAnimationFrame 1].
Proof. vm_compute. repeat split. Qed.

Example teardown_cancels_the_frame :
  let s := session [mkTick 0 EstNull; mkTick 16 (EstNumber 110)] in
  frameQueue (host s) = [2%nat] /\
  frameQueue (host (snd (cleanup never_throws s))) = [].
Proof. vm_compute. split; reflexivity. Qed.

(** ** The tone player *)

Section Player.

Variable throws : HostCall -> bool.
Hypothesis host_answers : forall c, throws c = false.

(** A call through a closure that captured [playing = false], in a host
    that answers every call. *)
Lemma playFrequency_starts (hertz : Q) (s : Tuner) :
  let context := nextObject (host s) in
  let oscillator := S context in
  let gainNode := S oscillator in
  playFrequency throws false hertz s =
  (Normal tt,
   mkTuner
     (mkDisplay (note (display s)) (cents (display s)) (status (display s))
                true (frequencyData (display s)))
     (mkRefs (audioContextRef (refs s)) (audioSourceRef (refs s))
             (analyserRef (refs s)) (animationFrameRef (refs s))
             (smoothingRef (refs s)) (pitchFinderRef (refs s))
             (Some context) (chartDataRef (refs s)))
     (previousPitch s)
     (mkHost (frameQueue (host s)) (nextFrameId (host s)) (S gainNode)
             (timers (host s) ++ [(1000%Z, FadeTimer oscillator gainNode)])
             (hostCalls (host s)
              ++ [SetGain gainNode 0.4; OscillatorStart oscillator hertz]))).
Proof.
  destruct s as [d r p h]. destruct d, r, h.
  unfold playFrequency, bind, hostCall. simpl.
  rewrite !host_answers. cbv -[app]. rewrite <- app_assoc. reflexivity.
Qed.

End Player.

Lemma tones_started_app (s : Tuner) (calls : list HostCall) (s' : Tuner) :
  hostCalls (host s') = hostCalls (host s) ++ calls ->
  tones_started s'
  = tones_started s
    ++ filter (fun c => match c with OscillatorStart _ _ => true | _ => false end) calls.
Proof. intros H. unfold tones_started. rewrite H. apply filter_app. Qed.

(** The guard of line 182 across renders.  A call of [playFrequency]
    through a closure that captured [playing = true] does nothing: no
    tone, no timer, no state change, no exception.  In a host that
    answers every call, a click while the rendered [playing] is false
    starts exactly one tone and sets [playing]; once that is rendered, a
    further click, or any call through the new render's closure, does
    nothing. *)
Theorem play_is_guarded_by_rendered_flag (throws : HostCall -> bool)
    (hertz : Q) (s : Tuner) :
  playFrequency throws true hertz s = (Normal tt, s) /\
  ((forall c, throws c = false) -> playing (display s) = false ->
     let s1 := click throws s in
     playing (display s1) = true /\
     tones_started s1
     = tones_started s
       ++ [OscillatorStart (S (nextObject (host s))) (TUNING_FREQUENCIES E2)] /\
     click throws s1 = s1 /\
     playFrequency throws (playing (display s1)) hertz s1 = (Normal tt, s1)).
Proof.
  split; [reflexivity |].
  intros Hhost Hidle s1.
  assert (Hs1 : s1 = snd (playFrequency throws false (TUNING_FREQUENCIES E2) s)).
  { unfold s1, click. rewrite Hidle. reflexivity. }
  rewrite (playFrequency_starts throws Hhost) in Hs1. cbn [snd] in Hs1.
  assert (Hplay : playing (display s1) = true) by (rewrite Hs1; reflexivity).
  split; [exact Hplay |].
  split.
  { rewrite (tones_started_app s
               [SetGain (S (S (nextObject (host s)))) 0.4;
                OscillatorStart (S (nextObject (host s))) (TUNING_FREQUENCIES E2)] s1).
    - reflexivity.
    - rewrite Hs1. reflexivity. }
  split.
  - unfold click. rewrite Hplay. reflexivity.
  - rewrite Hplay. reflexivity.
Qed.

Lemma play_is_guarded_by_rendered_flag_witness :
  let s1 := click never_throws initial in
  playFrequency never_throws true 82.41 initial = (Normal tt, initial) /\
  playing (display initial) = false /\
  playing (display s1) = true /\
  tones_started s1 = [OscillatorStart 1 82.41] /\
  click never_throws s1 = s1.
Proof.
  intros s1.
  destruct (play_is_guarded_by_rendered_flag never_throws 82.41 initial) as [Hnoop Hclick].
  destruct (Hclick (fun _ => eq_refl) eq_refl) as (Hp & Ht & Hc & _).
  split; [exact Hnoop |]. split; [reflexivity |]. split; [exact Hp |].
  split; [exact Ht | exact Hc].
Defined.

(** C8.  The guard [if (!playing)] reads the [playing] of the render
    that made the closure, not the state: two calls one after the other
    through the same render's closure, which captured [playing = false],
    both pass the guard and both start a tone, and the two oscillators
    sound at once. *)
Lemma same_render_calls_both_play :
  let play := playFrequency never_throws false 82.41 in
  let s1 := snd (play initial) in
  let s2 := snd (play s1) in
  fst (play initial) = Normal tt /\ fst (play s1) = Normal tt /\
  tones_started s2 = [OscillatorStart 1 82.41; OscillatorStart 4 82.41] /\
  sounding s2 = [1%nat; 4%nat].
Proof. vm_compute. repeat split. Qed.

(** One playback from click to the end of the second timer. *)
Example playback_cycle :
  let s1 := click never_throws initial in
  let s2 := timerFires never_throws 0 s1 in
  let s3 := timerFires never_throws 0 s2 in
  sounding s1 = [1%nat] /\
  timers (host s2) = [(200%Z, StopTimer 1)] /\
  sounding s3 = [] /\ playing (display s3) = false /\
  playContextRef (refs s3) = None /\ timers (host s3) = [] /\
  hostCalls (host s3)
  = [SetGain 2 0.4; OscillatorStart 1 82.41; SetGain 2 0;
     OscillatorStop 1; CloseContext 0].
Proof. vm_compute. repeat split. Qed.

(** ** More on the classifier *)

Section Thresholds.

(** For two references [a < b], which one is closer is decided by the
    midpoint. *)
Lemma closer_to_lower (f a b : Q) :
  a < b -> (Qabs (f - a) <= Qabs (f - b) <-> 2 * f <= a + b).
Proof.
  intros Hab. split.
  - apply Qabs_case; intros H1; apply Qabs_case; intros H2 H; lra.
  - intros H. apply Qabs_case; intros H1; apply Qabs_case; intros H2; lra.
Qed.

Lemma closer_to_upper (f a b : Q) :
  a < b -> (Qabs (f - b) < Qabs (f - a) <-> a + b < 2 * f).
Proof.
  intros Hab. split.
  - apply Qabs_case; intros H1; apply Qabs_case; intros H2 H; lra.
  - intros H. apply Qabs_case; intros H1; apply Qabs_case; intros H2; lra.
Qed.

(** Every key enumerated before the returned one is strictly farther. *)
Lemma closestNote_beats_earlier (f : Q) (m : PitchClass) :
  (key_index m < key_index (closestNote f))%nat ->
  Qabs (f - TUNING_FREQUENCIES (closestNote f)) < Qabs (f - TUNING_FREQUENCIES m).
Proof.
  destruct (closestNote_first_minimum f) as (before & after & Hk & Hb & _).
  intros Hlt. apply Hb.
  unfold Object_keys in Hk.
  repeat (destruct before as [| ? before];
          [ simpl in Hk; injection Hk as Hc Hk
          | simpl in Hk; injection Hk as ? Hk; subst ]);
    try (destruct before; discriminate Hk);
    rewrite <- ?Hc in Hlt; destruct m; simpl in Hlt; try lia; simpl; tauto.
Qed.

End Thresholds.

Lemma Qle_bool_false (a b : Q) : Qle_bool a b = false -> b < a.
Proof.
  intros H. apply Qnot_le_lt. intros Hle. apply Qle_bool_iff in Hle. congruence.
Qed.

Lemma closest_upper_bound (f : Q) (n m : PitchClass) :
  closestNote f = n -> TUNING_FREQUENCIES n < TUNING_FREQUENCIES m ->
  2 * f <= TUNING_FREQUENCIES n + TUNING_FREQUENCIES m.
Proof.
  intros Hn Hlt. apply closer_to_lower; [exact Hlt |].
  rewrite <- Hn. apply first_minimum_least, closestNote_first_minimum.
Qed.

Lemma closest_lower_bound (f : Q) (n m : PitchClass) :
  closestNote f = n -> (key_index m < key_index n)%nat ->
  TUNING_FREQUENCIES m < TUNING_FREQUENCIES n ->
  TUNING_FREQUENCIES m + TUNING_FREQUENCIES n < 2 * f.
Proof.
  intros Hn Hidx Hlt. apply closer_to_upper; [exact Hlt |].
  rewrite <- Hn in *. apply closestNote_beats_earlier, Hidx.
Qed.

Lemma key_string_not_placeholder (n : PitchClass) : key_string n <> "--".
Proof. destruct n; discriminate. Qed.

(** X2. The placeholder note is returned exactly on the frequencies at
    or below zero; on every other frequency the note is one of the six
    keys. *)
Theorem placeholder_iff_nonpositive (f : Q) :
  (tr_note (getNoteAndCents f) = "--" <-> f <= 0) /\
  (0 < f -> exists n, tr_note (getNoteAndCents f) = key_string n).
Proof.
  split; [split |].
  - intros H. apply Qnot_lt_le. intros Hf.
    rewrite getNoteAndCents_pos in H by exact Hf.
    exact (key_string_not_placeholder _ H).
  - intros Hf. rewrite getNoteAndCents_nonpos by exact Hf. reflexivity.
  - intros Hf. rewrite getNoteAndCents_pos by exact Hf. eexists. reflexivity.
Qed.

Lemma placeholder_iff_nonpositive_witness :
  exists n, tr_note (getNoteAndCents 440) = key_string n.
Proof.
  apply (proj2 (placeholder_iff_nonpositive 440)). reflexivity.
Defined.

(** X3. Looking a key up in the table and classifying the frequency
    found gives the key back, with zero cents. *)
Theorem reference_round_trip (n : PitchClass) :
  getNoteAndCents (TUNING_FREQUENCIES n) = mkTuningResult (key_string n) 0.
Proof. destruct n; vm_compute; reflexivity. Qed.

Section CentsOrder.
Local Open Scope R_scope.

Lemma floor_scaled_log2_monotone (x y : Q) :
  (0 < x)%Q -> (x <= y)%Q ->
  (floor_scaled_log2 1200 x <= floor_scaled_log2 1200 y)%Z.
Proof.
  intros Hx Hxy.
  assert (Hy : (0 < y)%Q) by (eapply Qlt_le_trans; eassumption).
  pose proof (floor_scaled_log2_spec 1200 x Hx) as [Hx1 _].
  pose proof (floor_scaled_log2_spec 1200 y Hy) as [_ Hy2].
  cbv zeta in Hx1, Hy2.
  assert (Hln : ln (Q2R x) <= ln (Q2R y)).
  { apply ln_le_mono; [apply Q2R_pos, Hx | apply Qle_Rle, Hxy]. }
  pose proof ln2_pos as H2.
  assert (Hlog : log2R (Q2R x) <= log2R (Q2R y)).
  { unfold log2R, Rdiv. apply Rmult_le_compat_r; [| exact Hln].
    left. apply Rinv_0_lt_compat, H2. }
  assert (H : (floor_scaled_log2 1200 x < floor_scaled_log2 1200 y + 1)%Z).
  { apply lt_IZR. rewrite plus_IZR. lra. }
  lia.
Qed.

Lemma floor_scaled_log2_nonneg_iff (x : Q) :
  (0 < x)%Q -> ((0 <= floor_scaled_log2 1200 x)%Z <-> (1 <= x)%Q).
Proof.
  intros Hx.
  pose proof (floor_scaled_log2_spec 1200 x Hx) as [H1 H2]. cbv zeta in H1, H2.
  pose proof (scaled_log2R_ge (Q2R x) 0 (Q2R_pos x Hx)) as Hge.
  replace (0 / 1200) with 0 in Hge by field.
  rewrite Rpower_O in Hge by lra.
  split; intros H.
  - apply Rle_Qle. replace (Q2R 1) with 1 by (unfold Q2R; simpl; field).
    apply Hge. apply IZR_le in H. lra.
  - apply Qle_Rle in H. replace (Q2R 1) with 1 in H by (unfold Q2R; simpl; field).
    apply Hge in H.
    assert (Hlt : (-1 < floor_scaled_log2 1200 x)%Z).
    { apply lt_IZR. lra. }
    lia.
Qed.

End CentsOrder.

Lemma quotient_le (f g ref : Q) :
  0 < ref -> f <= g -> f / ref <= g / ref.
Proof.
  intros Href Hfg. unfold Qdiv. apply Qmult_le_compat_r; [exact Hfg |].
  apply Qlt_le_weak, Qinv_lt_0_compat, Href.
Qed.

Lemma quotient_pos (f ref : Q) : 0 < f -> 0 < ref -> 0 < f / ref.
Proof.
  intros Hf Href. apply Qlt_shift_div_l; [exact Href |].
  rewrite Qmult_0_l. exact Hf.
Qed.

(** X4. The sign of the cents tells flat from sharp: for a frequency
    above zero the cents are negative exactly when the frequency is
    below the reference of the returned key. *)
Theorem cents_negative_iff_flat (f : Q) :
  0 < f ->
  ((tr_cents (getNoteAndCents f) < 0)%Z <-> f < TUNING_FREQUENCIES (closestNote f)).
Proof.
  intros Hf. rewrite getNoteAndCents_pos by exact Hf. cbn [tr_cents].
  pose proof (TUNING_FREQUENCIES_pos (closestNote f)) as Href.
  set (ref := TUNING_FREQUENCIES (closestNote f)) in *.
  pose proof (floor_scaled_log2_nonneg_iff (f / ref) (quotient_pos f ref Hf Href)) as H.
  assert (Hq : 1 <= f / ref <-> ref <= f).
  { split; intros Hle.
    - apply Qmult_le_compat_r with (z := ref) in Hle; [| apply Qlt_le_weak, Href].
      rewrite Qmult_1_l in Hle. unfold Qdiv in Hle.
      rewrite <- Qmult_assoc, (Qmult_comm (/ ref)), Qmult_inv_r, Qmult_1_r in Hle;
        [exact Hle | intros E; rewrite E in Href; discriminate].
    - apply Qle_shift_div_l; [exact Href |]. rewrite Qmult_1_l. exact Hle. }
  split; intros Hneg.
  - apply Qnot_le_lt. intros Hle. apply Hq, H in Hle. lia.
  - destruct (Z_lt_le_dec (floor_scaled_log2 1200 (f / ref)) 0) as [Hlt | Hge];
      [exact Hlt |].
    apply H, Hq in Hge. exfalso. exact (Qlt_not_le _ _ Hneg Hge).
Qed.

Lemma cents_negative_iff_flat_witness :
  ((tr_cents (getNoteAndCents 109) < 0)%Z <-> 109 < TUNING_FREQUENCIES (closestNote 109)).
Proof. apply (cents_negative_iff_flat 109). reflexivity. Defined.

(** X5. Among frequencies classified to the same key, a higher
    frequency never shows fewer cents. *)
Theorem cents_monotone (f g : Q) :
  0 < f -> f <= g -> closestNote f = closestNote g ->
  (tr_cents (getNoteAndCents f) <= tr_cents (getNoteAndCents g))%Z.
Proof.
  intros Hf Hfg Hsame.
  assert (Hg : 0 < g) by (eapply Qlt_le_trans; eassumption).
  rewrite !getNoteAndCents_pos by assumption. cbn [tr_cents]. rewrite <- Hsame.
  pose proof (TUNING_FREQUENCIES_pos (closestNote f)) as Href.
  apply floor_scaled_log2_monotone.
  - apply quotient_pos; assumption.
  - apply quotient_le; assumption.
Qed.

Lemma cents_monotone_witness :
  (tr_cents (getNoteAndCents 100) <= tr_cents (getNoteAndCents 120))%Z.
Proof.
  apply cents_monotone; [reflexivity | discriminate | vm_compute; reflexivity].
Defined.

(** X6. Between the lowest and the highest reference of the table the
    cents stay between -233 and 268. *)
Theorem cents_bounded_in_range (f : Q) :
  82.41 <= f -> f <= 329.63 ->
  (-233 <= tr_cents (getNoteAndCents f) <= 268)%Z.
Proof.
  intros Hlo Hhi.
  assert (Hf : 0 < f) by lra.
  rewrite getNoteAndCents_pos by exact Hf. cbn [tr_cents].
  assert (Hbound : forall ref lo hi cl ch,
            0 < ref -> 0 < lo -> lo <= f -> f <= hi ->
            floor_scaled_log2 1200 (lo / ref) = cl ->
            floor_scaled_log2 1200 (hi / ref) = ch ->
            (cl <= floor_scaled_log2 1200 (f / ref) <= ch)%Z).
  { intros ref lo hi cl ch Href Hl0 Hl Hh <- <-. split.
    - apply floor_scaled_log2_monotone;
        [apply quotient_pos | apply quotient_le]; assumption.
    - apply floor_scaled_log2_monotone;
        [apply quotient_pos | apply quotient_le]; assumption. }
  destruct (closestNote f) eqn:Hc.
  - pose proof (closest_upper_bound f E2 A2 Hc eq_refl) as Hu.
    unfold TUNING_FREQUENCIES in Hu |- *.
    pose proof (Hbound 82.41 82.41 96.205 0%Z 267%Z eq_refl eq_refl Hlo
                  ltac:(lra) ltac:(vm_compute; reflexivity)
                  ltac:(vm_compute; reflexivity)).
    lia.
  - pose proof (closest_upper_bound f A2 D3 Hc eq_refl) as Hu.
    pose proof (closest_lower_bound f A2 E2 Hc ltac:(simpl; lia) eq_refl) as Hl.
    unfold TUNING_FREQUENCIES in Hu, Hl |- *.
    pose proof (Hbound 110.00 96.205 128.415 (-232)%Z 267%Z eq_refl eq_refl
                  ltac:(lra) ltac:(lra) ltac:(vm_compute; reflexivity)
                  ltac:(vm_compute; reflexivity)).
    lia.
  - pose proof (closest_upper_bound f D3 G3 Hc eq_refl) as Hu.
    pose proof (closest_lower_bound f D3 A2 Hc ltac:(simpl; lia) eq_refl) as Hl.
    unfold TUNING_FREQUENCIES in Hu, Hl |- *.
    pose proof (Hbound 146.83 128.415 171.415 (-232)%Z 268%Z eq_refl eq_refl
                  ltac:(lra) ltac:(lra) ltac:(vm_compute; reflexivity)
                  ltac:(vm_compute; reflexivity)).
    lia.
  - pose proof (closest_upper_bound f G3 B3 Hc eq_refl) as Hu.
    pose proof (closest_lower_bound f G3 D3 Hc ltac:(simpl; lia) eq_refl) as Hl.
    unfold TUNING_FREQUENCIES in Hu, Hl |- *.
    pose proof (Hbound 196.00 171.415 221.47 (-233)%Z 211%Z eq_refl eq_refl
                  ltac:(lra) ltac:(lra) ltac:(vm_compute; reflexivity)
                  ltac:(vm_compute; reflexivity)).
    lia.
  - pose proof (closest_upper_bound f B3 E4 Hc eq_refl) as Hu.
    pose proof (closest_lower_bound f B3 G3 Hc ltac:(simpl; lia) eq_refl) as Hl.
    unfold TUNING_FREQUENCIES in Hu, Hl |- *.
    pose proof (Hbound 246.94 221.47 288.285 (-189)%Z 268%Z eq_refl eq_refl
                  ltac:(lra) ltac:(lra) ltac:(vm_compute; reflexivity)
                  ltac:(vm_compute; reflexivity)).
    lia.
  - pose proof (closest_lower_bound f E4 B3 Hc ltac:(simpl; lia) eq_refl) as Hl.
    unfold TUNING_FREQUENCIES in Hl |- *.
    pose proof (Hbound 329.63 288.285 329.63 (-233)%Z 0%Z eq_refl eq_refl
                  ltac:(lra) Hhi ltac:(vm_compute; reflexivity)
                  ltac:(vm_compute; reflexivity)).
    lia.
Qed.

Lemma cents_bounded_in_range_witness :
  (-233 <= tr_cents (getNoteAndCents 200) <= 268)%Z.
Proof. apply cents_bounded_in_range; discriminate. Defined.

(** ** The cents indicator *)

Section Indicator.

Lemma in_renderCentsIndicator (cents : Z) (b : Bar) :
  In b (renderCentsIndicator cents) <->
  exists i, (0 <= i < 21)%Z /\
    b = mkBar i (if (i =? 10)%Z then 30%Z else 20%Z)
              (if (i =? 10)%Z then white
               else if (i =? 10 + cents / 5)%Z then
                      (if (0 <? cents)%Z then green else red)
                    else gray).
Proof.
  unfold renderCentsIndicator. rewrite in_map_iff.
  change (21 / 2)%Z with 10%Z. change (Z.to_nat 21) with 21%nat.
  split.
  - intros (i & <- & Hi). apply in_map_iff in Hi. destruct Hi as (k & <- & Hk).
    apply in_seq in Hk. exists (Z.of_nat k). split; [lia | reflexivity].
  - intros (i & Hi & ->). exists i. split; [reflexivity |].
    apply in_map_iff. exists (Z.to_nat i). split; [lia |].
    apply in_seq. lia.
Qed.

Lemma active_bar_index (cents : Z) :
  ((5 <= cents <= 54 <-> 11 <= 10 + cents / 5 <= 20) /\
   (-50 <= cents <= -1 <-> 0 <= 10 + cents / 5 <= 9) /\
   (0 <= cents <= 4 <-> 10 + cents / 5 = 10))%Z.
Proof.
  pose proof (Z.div_mod cents 5 ltac:(lia)) as Hdm.
  pose proof (Z.mod_pos_bound cents 5 ltac:(lia)) as Hr.
  set (q := (cents / 5)%Z) in *. set (r := (cents mod 5)%Z) in *.
  lia.
Qed.

End Indicator.

(** X7. Whatever the cents, the indicator has 21 bars with the keys 0
    to 20 in order; the bar in the middle, key 10, is white and 30
    pixels high, and every other bar is 20 pixels high and never
    white. *)
Theorem indicator_frame (cents : Z) :
  map bar_key (renderCentsIndicator cents)
  = [0; 1; 2; 3; 4; 5; 6; 7; 8; 9; 10; 11; 12; 13; 14; 15; 16; 17; 18; 19; 20]%Z /\
  forall b, In b (renderCentsIndicator cents) ->
    (bar_key b = 10%Z -> backgroundColor b = white /\ bar_height b = 30%Z) /\
    (bar_key b <> 10%Z -> backgroundColor b <> white /\ bar_height b = 20%Z).
Proof.
  split; [reflexivity |].
  intros b Hb. apply in_renderCentsIndicator in Hb. destruct Hb as (i & Hi & ->).
  cbn [bar_key backgroundColor bar_height].
  destruct (Z.eqb_spec i 10) as [-> | Hne].
  - split; [split; reflexivity | congruence].
  - split; [congruence |]. intros _. split; [| reflexivity].
    destruct (i =? 10 + cents / 5)%Z; [destruct (0 <? cents)%Z |]; discriminate.
Qed.

(** X8. A bar is lit green only for 5 to 54 cents and red only for -50
    to -1 cents, at key [10 + floor (cents / 5)], green to the right of
    the middle and red to the left; in these two ranges a bar is lit,
    and it is the only one.  From 0 to 4 cents, above 54 and below -50
    no bar is lit. *)
Theorem indicator_lit_bar (cents : Z) :
  ((exists b, In b (renderCentsIndicator cents) /\ lit b) <->
   (-50 <= cents <= -1 \/ 5 <= cents <= 54)%Z) /\
  (forall b, In b (renderCentsIndicator cents) ->
     (backgroundColor b = green ->
        (5 <= cents <= 54 /\ bar_key b = 10 + cents / 5 /\ 10 < bar_key b)%Z) /\
     (backgroundColor b = red ->
        (-50 <= cents <= -1 /\ bar_key b = 10 + cents / 5 /\ bar_key b < 10)%Z)) /\
  (forall b b', In b (renderCentsIndicator cents) ->
     In b' (renderCentsIndicator cents) -> lit b -> lit b' -> b = b').
Proof.
  pose proof (active_bar_index cents) as (Hgreen & Hred & Hmid).
  assert (Hlit : forall b, In b (renderCentsIndicator cents) -> lit b ->
            (bar_key b = 10 + cents / 5 /\ bar_key b <> 10 /\ 0 <= bar_key b < 21)%Z /\
            b = mkBar (10 + cents / 5) 20
                      (if (0 <? cents)%Z then green else red)).
  { intros b Hb Hl. apply in_renderCentsIndicator in Hb.
    destruct Hb as (i & Hi & ->). unfold lit in Hl. cbn [backgroundColor bar_key] in *.
    destruct (Z.eqb_spec i 10) as [-> | Hne];
      [destruct Hl; discriminate |].
    destruct (Z.eqb_spec i (10 + cents / 5)) as [-> | Hne'];
      [| destruct Hl; discriminate].
    split; [lia | reflexivity]. }
  split; [split |]; [| | split].
  - intros (b & Hb & Hl). destruct (Hlit b Hb Hl) as [(Hk & Hne & Hrange) _]. lia.
  - intros Hc.
    exists (mkBar (10 + cents / 5) 20 (if (0 <? cents)%Z then green else red)).
    split.
    + apply in_renderCentsIndicator. exists (10 + cents / 5)%Z.
      split; [lia |].
      destruct (Z.eqb_spec (10 + cents / 5) 10) as [E | _]; [lia |].
      rewrite Z.eqb_refl. reflexivity.
    + unfold lit. cbn [backgroundColor]. destruct (0 <? cents)%Z; tauto.
  - intros b Hb. split; intros Hcol.
    + destruct (Hlit b Hb (or_introl Hcol)) as [(Hk & Hne & Hrange) Hb'].
      rewrite Hb' in Hcol. cbn [backgroundColor] in Hcol.
      destruct (Z.ltb_spec 0 cents); [| discriminate]. lia.
    + destruct (Hlit b Hb (or_intror Hcol)) as [(Hk & Hne & Hrange) Hb'].
      rewrite Hb' in Hcol. cbn [backgroundColor] in Hcol.
      destruct (Z.ltb_spec 0 cents); [discriminate |]. lia.
  - intros b b' Hb Hb' Hl Hl'.
    destruct (Hlit b Hb Hl) as [_ ->]. destruct (Hlit b' Hb' Hl') as [_ ->].
    reflexivity.
Qed.

(** ** Invariants of a session *)

Section SessionInvariants.

Lemma initialize_granted (rate : Z) (first : Tick) :
  completes first ->
  initializePitchDetection (Granted rate) first initial
  = updatePitch first (granted rate).
Proof.
  intros Hc. unfold completes in Hc.
  unfold initializePitchDetection, try_catch, bind, updatePitch, bind, gets. simpl.
  destruct (estimate first); [reflexivity | reflexivity | contradiction].
Qed.

Lemma granted_active (rate : Z) : active (granted rate).
Proof. split; discriminate. Qed.

Lemma running_pending (s : Tuner) (t : Tick) :
  running s -> animationFrame t s = snd (updatePitch t (pop_frame s [])).
Proof.
  intros [_ [id Hq]]. apply (animationFrame_pending s t id [] Hq).
Qed.

(** Induction over the ticks of a session: [J] holds before a tick and
    does not look at the frame queue, [I] holds after a tick. *)
Lemma session_induction (J I : Tuner -> Prop) (ok : Tick -> Prop) :
  J (granted 48000) ->
  (forall s, I s -> J s) ->
  (forall s rest, J s -> J (pop_frame s rest)) ->
  (forall s t, active s -> J s -> ok t -> completes t ->
               I (snd (updatePitch t s))) ->
  forall ts, ts <> [] -> Forall ok ts -> Forall completes ts -> I (session ts).
Proof.
  intros J0 HIJ Hpop Hstep ts Hne Hok Hc.
  destruct ts as [| first rest]; [congruence |].
  inversion Hok as [| ? ? Hok1 Hokr]; subst.
  inversion Hc as [| ? ? Hc1 Hcr]; subst.
  unfold session.
  destruct (first_tick first Hc1) as (_ & _ & _ & _ & Hrun).
  assert (HI : I (snd (initializePitchDetection (Granted 48000) first initial))).
  { rewrite initialize_granted by exact Hc1.
    apply Hstep; [apply granted_active | exact J0 | exact Hok1 | exact Hc1]. }
  revert Hrun HI.
  generalize (snd (initializePitchDetection (Granted 48000) first initial)).
  clear Hok Hc Hok1 Hc1 Hne first.
  induction rest as [| t rest IH]; intros s Hrun HI; [exact HI |].
  inversion Hokr as [| ? ? Hokt Hokr']; subst.
  inversion Hcr as [| ? ? Hct Hcr']; subst.
  unfold frames in *. simpl.
  apply (IH Hokr' Hcr').
  - destruct (frame_appends s t Hrun Hct) as (_ & _ & _ & _ & H). exact H.
  - rewrite (running_pending s t Hrun).
    apply Hstep; [apply active_pop_frame, Hrun | apply Hpop, HIJ, HI | exact Hokt | exact Hct].
Qed.

Lemma TuningResult_eta (r : TuningResult) :
  r = mkTuningResult (tr_note r) (tr_cents r).
Proof. destruct r. reflexivity. Qed.

End SessionInvariants.

(** X10. When the microphone is refused, the message of the refusal is
    shown after the words "Error accessing microphone: ", nothing else
    of the state changes, no tick ever runs, and teardown has nothing
    to release. *)
Theorem refused_microphone (message : string) (first : Tick) :
  let s := snd (initializePitchDetection (Denied message) first initial) in
  s = mkTuner (mkDisplay "--" 0 ("Error accessing microphone: " ++ message)%string
                         false [])
              (refs initial) 0 (host initial) /\
  fst (initializePitchDetection (Denied message) first initial) = Normal tt /\
  (forall ts, frames ts s = s) /\
  (forall throws, cleanup throws s = (Normal tt, s)).
Proof.
  intros s. split; [reflexivity |]. split; [reflexivity |]. split.
  - intros ts. apply frames_idle. reflexivity.
  - intros throws. rewrite cleanup_runs_releases. reflexivity.
Qed.

(** X11. After every tick of a session whose ticks complete, what the
    component shows and stores agrees with the last point of the
    chart: the chart given to the display is the stored chart, the
    smoothing state is the last frequency charted, and the note and
    cents shown are the classification of that frequency. *)
Theorem display_agrees_with_chart (ts : list Tick) :
  ts <> [] -> Forall completes ts ->
  let s := session ts in
  frequencyData (display s) = chartDataRef (refs s) /\
  exists front p,
    chartDataRef (refs s) = front ++ [p] /\
    previousPitch s = frequency p /\
    note (display s) = dp_note p /\
    getNoteAndCents (frequency p)
    = mkTuningResult (note (display s)) (cents (display s)).
Proof.
  intros Hne Hc.
  apply (session_induction (fun _ => True)
           (fun s => frequencyData (display s) = chartDataRef (refs s) /\
                     exists front p,
                       chartDataRef (refs s) = front ++ [p] /\
                       previousPitch s = frequency p /\
                       note (display s) = dp_note p /\
                       getNoteAndCents (frequency p)
                       = mkTuningResult (note (display s)) (cents (display s)))
           (fun _ => True)); try tauto.
  - intros s t Hact _ _ Hct. unfold completes in Hct.
    destruct (estimate t) as [| f | m] eqn:He; [| | contradiction].
    + rewrite (updatePitch_null s t Hact He). cbn.
      split; [reflexivity |]. eexists _, _. split; [reflexivity |].
      cbn. repeat split.
    + rewrite (updatePitch_number s t f Hact He). cbn.
      split; [reflexivity |]. eexists _, _. split; [reflexivity |].
      cbn. split; [reflexivity |]. split; [reflexivity |].
      apply TuningResult_eta.
  - clear. induction ts; constructor; auto.
Qed.

Lemma display_agrees_with_chart_witness :
  let s := session [mkTick 0 (EstNumber 100); mkTick 16 EstNull;
                    mkTick 33 (EstNumber 112)] in
  frequencyData (display s) = chartDataRef (refs s) /\
  exists front p,
    chartDataRef (refs s) = front ++ [p] /\
    previousPitch s = frequency p /\
    note (display s) = dp_note p /\
    getNoteAndCents (frequency p)
    = mkTuningResult (note (display s)) (cents (display s)).
Proof.
  apply display_agrees_with_chart; [discriminate | repeat constructor].
Defined.

(** X12. Every point of the chart carries the note that
    [getNoteAndCents] gives for the point's own frequency; the points
    of ticks without a pitch, with frequency 0, carry the
    placeholder. *)
Theorem chart_points_are_labelled (ts : list Tick) :
  Forall completes ts -> Forall labelled (chartDataRef (refs (session ts))).
Proof.
  intros Hc. destruct ts as [| first rest]; [constructor |].
  apply (session_induction
           (fun s => Forall labelled (chartDataRef (refs s)))
           (fun s => Forall labelled (chartDataRef (refs s)))
           (fun _ => True)); try tauto; try discriminate.
  - constructor.
  - intros s t Hact HJ _ Hct. unfold completes in Hct.
    destruct (estimate t) as [| f | m] eqn:He; [| | contradiction].
    + rewrite (updatePitch_null s t Hact He). cbn.
      apply Forall_app. split; [exact HJ |]. constructor; [| constructor].
      reflexivity.
    + rewrite (updatePitch_number s t f Hact He). cbn.
      apply Forall_app. split; [exact HJ |]. constructor; [| constructor].
      reflexivity.
  - clear. induction rest; repeat constructor.
    inversion IHrest; assumption.
Qed.

Lemma chart_points_are_labelled_witness :
  Forall labelled
    (chartDataRef (refs (session [mkTick 0 (EstNumber 100); mkTick 16 EstNull]))).
Proof. apply chart_points_are_labelled. repeat constructor. Defined.

(** ** Teardown of a running session *)

Section StopLoop.

Lemma frame_held_running (s : Tuner) : frame_held s -> running s.
Proof. intros (Ha & _ & id & _ & Hq & _). split; [exact Ha | exists id; exact Hq]. Qed.

Lemma frame_held_step (s : Tuner) (t : Tick) :
  active s -> frameQueue (host s) = [] -> nextFrameId (host s) <> 0%nat ->
  completes t -> frame_held (snd (updatePitch t s)).
Proof.
  intros Hact Hq Hn Hc. unfold completes in Hc.
  destruct (estimate t) as [| f | m] eqn:He; [| | contradiction].
  - rewrite (updatePitch_null s t Hact He). cbn [snd]. unfold frame_held. cbn.
    split; [exact Hact |]. split; [discriminate |].
    exists (nextFrameId (host s)). rewrite Hq. repeat split. exact Hn.
  - rewrite (updatePitch_number s t f Hact He). cbn [snd]. unfold frame_held. cbn.
    split; [exact Hact |]. split; [discriminate |].
    exists (nextFrameId (host s)). rewrite Hq. repeat split. exact Hn.
Qed.

Lemma session_frame_held (ts : list Tick) :
  ts <> [] -> Forall completes ts -> frame_held (session ts).
Proof.
  intros Hne Hc. destruct ts as [| first rest]; [congruence |].
  inversion Hc as [| ? ? Hc1 Hcr]; subst. unfold session.
  assert (H1 : frame_held (snd (initializePitchDetection (Granted 48000) first initial))).
  { rewrite initialize_granted by exact Hc1.
    apply frame_held_step; [apply granted_active | reflexivity | discriminate | exact Hc1]. }
  revert H1. generalize (snd (initializePitchDetection (Granted 48000) first initial)).
  clear Hc Hc1 Hne first.
  induction rest as [| t rest IH]; intros s Hs; [exact Hs |].
  inversion Hcr as [| ? ? Hct Hcr']; subst.
  unfold frames in *. simpl. apply (IH Hcr').
  rewrite (running_pending s t (frame_held_running s Hs)).
  destruct Hs as (Ha & Hn & _).
  apply frame_held_step; [exact Ha | reflexivity | exact Hn | exact Hct].
Qed.

Variable throws : HostCall -> bool.
Hypothesis host_answers : forall c, throws c = false.

Lemma hostCall_answers (c : HostCall) (s : Tuner) :
  hostCall throws c s
  = (Normal tt,
     mkTuner (display s) (refs s) (previousPitch s)
       (mkHost (frameQueue (host_effect c (host s))) (nextFrameId (host s))
               (nextObject (host s)) (timers (host s))
               (hostCalls (host s) ++ [c]))).
Proof.
  unfold hostCall. rewrite host_answers. destruct s as [d r p h]. destruct h, c; reflexivity.
Qed.

(** What teardown leaves of the state when every release call returns:
    everything but the frame queue and the log of calls. *)
Lemma cleanup_answers (s : Tuner) :
  cleanup throws s
  = (Normal tt,
     mkTuner (display s) (refs s) (previousPitch s)
       (mkHost (match truthy_id (animationFrameRef (refs s)) with
                | Some id => filter (fun i => negb (Nat.eqb i id)) (frameQueue (host s))
                | None => frameQueue (host s)
                end)
               (nextFrameId (host s)) (nextObject (host s)) (timers (host s))
               (hostCalls (host s) ++ releases (refs s)))).
Proof.
  destruct s as [d r p h].
  destruct r as [ctx src an fr sm pf pc ch]. destruct h as [q nf no tm hc].
  unfold cleanup, releases, bind, gets, ret.
  destruct src, an, ctx, fr as [[| id] |], pc;
    cbn [refs audioSourceRef analyserRef audioContextRef animationFrameRef
         playContextRef truthy_id];
    repeat (rewrite hostCall_answers; cbn);
    rewrite <- ?app_assoc; cbn; try rewrite app_nil_r; reflexivity.
Qed.

End StopLoop.

(** X13. Teardown stops a running loop.  In a session whose ticks
    complete, exactly one frame is requested and [animationFrameRef]
    holds its id; when the release calls return, teardown takes that
    frame out of the queue, so that no later frame runs a tick, and
    leaves the chart, the display and the refs as they were. *)
Theorem teardown_stops_the_loop (throws : HostCall -> bool) (ts : list Tick) :
  ts <> [] -> Forall completes ts -> (forall c, throws c = false) ->
  let s := session ts in
  let s' := snd (cleanup throws s) in
  (exists id, frameQueue (host s) = [id] /\ animationFrameRef (refs s) = Some id) /\
  frameQueue (host s') = [] /\
  (forall later, frames later s' = s') /\
  refs s' = refs s /\ display s' = display s.
Proof.
  intros Hne Hc Hhost s s'.
  destruct (session_frame_held ts Hne Hc) as (_ & _ & id & Hid & Hq & Href).
  fold s in Hq, Href.
  assert (Hs' : frameQueue (host s') = []).
  { unfold s'. rewrite (cleanup_answers throws Hhost). cbn.
    rewrite Href, Hq. destruct id as [| id]; [congruence |].
    cbn. rewrite Nat.eqb_refl. reflexivity. }
  split; [exists id; split; assumption |].
  split; [exact Hs' |].
  split; [intros later; apply frames_idle; exact Hs' |].
  unfold s'. rewrite (cleanup_answers throws Hhost). split; reflexivity.
Qed.

Lemma teardown_stops_the_loop_witness :
  let s := session [mkTick 0 EstNull; mkTick 16 (EstNumber 110)] in
  let s' := snd (cleanup never_throws s) in
  frameQueue (host s) = [2%nat] /\
  frameQueue (host s') = [] /\
  frames [mkTick 33 (EstNumber 111)] s' = s'.
Proof.
  intros s s'.
  destruct (teardown_stops_the_loop never_throws
              [mkTick 0 EstNull; mkTick 16 (EstNumber 110)])
    as (_ & Hq & Hlater & _);
    [discriminate | repeat constructor | reflexivity |].
  split; [reflexivity |]. split; [exact Hq | apply Hlater].
Defined.

(** ** Timers of the tone player *)

Section Timers.

Variable throws : HostCall -> bool.

Lemma timerFires_oldest (s : Tuner) (delay : Z) (t : Timer) (rest : list (Z * Timer)) :
  timers (host s) = (delay, t) :: rest ->
  timerFires throws 0 s
  = snd (runTimer throws t
           (mkTuner (display s) (refs s) (previousPitch s)
              (mkHost (frameQueue (host s)) (nextFrameId (host s))
                      (nextObject (host s)) rest (hostCalls (host s))))).
Proof.
  intros H. unfold timerFires. rewrite H. cbn [nth_error].
  unfold with_host. cbn. rewrite H. reflexivity.
Qed.

(** Both timer callbacks read [playContextRef.current.currentTime]
    first: with the ref null they throw before doing anything. *)
Lemma timer_without_context (t : Timer) (s : Tuner) :
  playContextRef (refs s) = None ->
  runTimer throws t s = (Throw "TypeError: playContextRef.current is null", s).
Proof.
  intros H. destruct t; unfold runTimer, fadeOut, stopTone,
    currentTime_of_playContext, bind, gets; rewrite H; reflexivity.
Qed.

Hypothesis host_answers : forall c, throws c = false.

Lemma fadeOut_answers (oscillator gainNode : nat) (s : Tuner) (c : nat) :
  playContextRef (refs s) = Some c ->
  fadeOut throws oscillator gainNode s
  = (Normal tt,
     mkTuner (display s) (refs s) (previousPitch s)
       (mkHost (frameQueue (host s)) (nextFrameId (host s)) (nextObject (host s))
               (timers (host s) ++ [(200%Z, StopTimer oscillator)])
               (hostCalls (host s) ++ [SetGain gainNode 0]))).
Proof.
  intros H. unfold fadeOut, currentTime_of_playContext, bind, gets.
  rewrite H. cbn. rewrite (hostCall_answers throws host_answers). reflexivity.
Qed.

Lemma stopTone_answers (oscillator : nat) (s : Tuner) (c : nat) :
  playContextRef (refs s) = Some c ->
  stopTone throws oscillator s
  = (Normal tt,
     mkTuner
       (mkDisplay (note (display s)) (cents (display s)) (status (display s))
                  false (frequencyData (display s)))
       (mkRefs (audioContextRef (refs s)) (audioSourceRef (refs s))
               (analyserRef (refs s)) (animationFrameRef (refs s))
               (smoothingRef (refs s)) (pitchFinderRef (refs s))
               None (chartDataRef (refs s)))
       (previousPitch s)
       (mkHost (frameQueue (host s)) (nextFrameId (host s)) (nextObject (host s))
               (timers (host s))
               (hostCalls (host s) ++ [OscillatorStop oscillator; CloseContext c]))).
Proof.
  intros H. unfold stopTone, currentTime_of_playContext, bind, gets.
  rewrite H. cbn. rewrite (hostCall_answers throws host_answers). cbn.
  rewrite H. rewrite (hostCall_answers throws host_answers). cbn.
  rewrite <- app_assoc. reflexivity.
Qed.

End Timers.

(** X15. A playback runs to its end.  From a player at rest, in a host
    that answers every call, a play call followed by its two timers
    makes exactly the calls gain 0.4, start, gain 0, stop and close on
    the three objects it created, and leaves [playing] false, the
    context ref null and no timer set. *)
Theorem playback_runs_to_completion (throws : HostCall -> bool) (hertz : Q)
    (s : Tuner) :
  (forall c, throws c = false) -> at_rest s ->
  let context := nextObject (host s) in
  let oscillator := S context in
  let gainNode := S oscillator in
  let s1 := snd (playFrequency throws false hertz s) in
  let s2 := timerFires throws 0 s1 in
  let s3 := timerFires throws 0 s2 in
  timers (host s1) = [(1000%Z, FadeTimer oscillator gainNode)] /\
  timers (host s2) = [(200%Z, StopTimer oscillator)] /\
  playing (display s3) = false /\
  playContextRef (refs s3) = None /\
  timers (host s3) = [] /\
  hostCalls (host s3)
  = hostCalls (host s)
    ++ [SetGain gainNode 0.4; OscillatorStart oscillator hertz;
        SetGain gainNode 0; OscillatorStop oscillator; CloseContext context].
Proof.
  intros Hhost [_ Ht] context oscillator gainNode s1 s2 s3.
  assert (H1 : timers (host s1) = [(1000%Z, FadeTimer oscillator gainNode)]).
  { unfold s1. rewrite (playFrequency_starts throws Hhost). cbn. rewrite Ht. reflexivity. }
  assert (E2 : s2 = snd (fadeOut throws oscillator gainNode
                           (mkTuner (display s1) (refs s1) (previousPitch s1)
                              (mkHost (frameQueue (host s1)) (nextFrameId (host s1))
                                      (nextObject (host s1)) []
                                      (hostCalls (host s1)))))).
  { unfold s2. rewrite (timerFires_oldest throws s1 _ _ _ H1). reflexivity. }
  rewrite (fadeOut_answers throws Hhost _ _ _ context) in E2
    by (unfold s1; rewrite (playFrequency_starts throws Hhost); reflexivity).
  cbn in E2.
  assert (H2 : timers (host s2) = [(200%Z, StopTimer oscillator)])
    by (rewrite E2; reflexivity).
  assert (E3 : s3 = snd (stopTone throws oscillator
                           (mkTuner (display s2) (refs s2) (previousPitch s2)
                              (mkHost (frameQueue (host s2)) (nextFrameId (host s2))
                                      (nextObject (host s2)) []
                                      (hostCalls (host s2)))))).
  { unfold s3. rewrite (timerFires_oldest throws s2 _ _ _ H2). reflexivity. }
  rewrite (stopTone_answers throws Hhost _ _ context) in E3
    by (rewrite E2; unfold s1; rewrite (playFrequency_starts throws Hhost); reflexivity).
  cbn in E3.
  split; [exact H1 |]. split; [exact H2 |].
  rewrite E3. cbn. split; [reflexivity |]. split; [reflexivity |].
  split; [reflexivity |].
  rewrite E2. cbn. unfold s1. rewrite (playFrequency_starts throws Hhost). cbn.
  rewrite <- !app_assoc. reflexivity.
Qed.

Lemma playback_runs_to_completion_witness :
  let s := session [mkTick 0 EstNull] in
  let s3 := timerFires never_throws 0
              (timerFires never_throws 0
                 (snd (playFrequency never_throws false 82.41 s))) in
  at_rest s /\
  playing (display s3) = false /\ playContextRef (refs s3) = None /\
  hostCalls (host s3)
  = [SetGain 5 0.4; OscillatorStart 4 82.41; SetGain 5 0;
     OscillatorStop 4; CloseContext 3].
Proof.
  intros s s3.
  assert (Hrest : at_rest s) by (split; reflexivity).
  split; [exact Hrest |].
  destruct (playback_runs_to_completion never_throws 82.41 s (fun _ => eq_refl) Hrest)
    as (_ & _ & Hp & Hr & _ & Hc).
  split; [exact Hp |]. split; [exact Hr | exact Hc].
Defined.

(** X16. Teardown in the middle of a playback does not end it.  From a
    player at rest, in a host that answers every call: after a play
    call, teardown closes the play context but leaves [playing] true,
    the context ref set and the fade timer pending; the two timers
    then run as usual, and the stop timer closes the same context a
    second time. *)
Theorem teardown_during_playback (throws : HostCall -> bool) (hertz : Q)
    (s : Tuner) :
  (forall c, throws c = false) -> at_rest s ->
  let context := nextObject (host s) in
  let oscillator := S context in
  let gainNode := S oscillator in
  let s1 := snd (playFrequency throws false hertz s) in
  let s2 := snd (cleanup throws s1) in
  let s4 := timerFires throws 0 (timerFires throws 0 s2) in
  (exists mic, releases (refs s1) = mic ++ [CloseContext context]) /\
  playing (display s2) = true /\
  playContextRef (refs s2) = Some context /\
  timers (host s2) = [(1000%Z, FadeTimer oscillator gainNode)] /\
  playing (display s4) = false /\
  playContextRef (refs s4) = None /\
  hostCalls (host s4)
  = hostCalls (host s)
    ++ [SetGain gainNode 0.4; OscillatorStart oscillator hertz]
    ++ releases (refs s1)
    ++ [SetGain gainNode 0; OscillatorStop oscillator; CloseContext context].
Proof.
  intros Hhost [_ Ht] context oscillator gainNode s1 s2 s4.
  assert (E1 : s1 = snd (playFrequency throws false hertz s)) by reflexivity.
  rewrite (playFrequency_starts throws Hhost) in E1. cbn [snd] in E1.
  rewrite Ht in E1. cbn [app] in E1.
  assert (E2 : s2 = snd (cleanup throws s1)) by reflexivity.
  rewrite (cleanup_answers throws Hhost) in E2. cbn [snd] in E2.
  assert (Hrel : exists mic, releases (refs s1) = mic ++ [CloseContext context]).
  { rewrite E1. unfold releases. cbn.
    eexists. rewrite !app_assoc. reflexivity. }
  assert (H2 : timers (host s2) = [(1000%Z, FadeTimer oscillator gainNode)])
    by (rewrite E2, E1; reflexivity).
  assert (Hc2 : playContextRef (refs s2) = Some context)
    by (rewrite E2, E1; reflexivity).
  set (s3 := timerFires throws 0 s2) in *.
  assert (E3 : s3 = timerFires throws 0 s2) by reflexivity.
  rewrite (timerFires_oldest throws s2 _ _ _ H2) in E3. cbn [runTimer] in E3.
  rewrite (fadeOut_answers throws Hhost _ _ _ context) in E3 by exact Hc2.
  cbn in E3.
  assert (H3 : timers (host s3) = [(200%Z, StopTimer oscillator)])
    by (rewrite E3; reflexivity).
  assert (Hc3 : playContextRef (refs s3) = Some context)
    by (rewrite E3; exact Hc2).
  assert (E4 : s4 = timerFires throws 0 s3) by reflexivity.
  rewrite (timerFires_oldest throws s3 _ _ _ H3) in E4. cbn [runTimer] in E4.
  rewrite (stopTone_answers throws Hhost _ _ context) in E4 by exact Hc3.
  cbn in E4.
  split; [exact Hrel |].
  split; [rewrite E2, E1; reflexivity |].
  split; [exact Hc2 |]. split; [exact H2 |].
  rewrite E4. cbn. split; [reflexivity |]. split; [reflexivity |].
  rewrite E3. cbn. rewrite E2. cbn. rewrite E1 at 1. cbn.
  rewrite <- !app_assoc. reflexivity.
Qed.

Lemma teardown_during_playback_witness :
  let s := session [mkTick 0 EstNull] in
  let s1 := snd (playFrequency never_throws false 82.41 s) in
  let s2 := snd (cleanup never_throws s1) in
  let s4 := timerFires never_throws 0 (timerFires never_throws 0 s2) in
  at_rest s /\ playing (display s2) = true /\
  hostCalls (host s4)
  = [SetGain 5 0.4; OscillatorStart 4 82.41;
     Disconnect 1; Disconnect 2; CloseContext 0; CancelAnimationFrame 1;
     CloseContext 3;
     SetGain 5 0; OscillatorStop 4; CloseContext 3].
Proof.
  intros s s1 s2 s4.
  assert (Hrest : at_rest s) by (split; reflexivity).
  split; [exact Hrest |].
  destruct (teardown_during_playback never_throws 82.41 s (fun _ => eq_refl) Hrest)
    as (_ & Hp & _ & _ & _ & _ & Hc).
  split; [exact Hp | exact Hc].
Defined.

(** X17. Two play calls through one render's closure share the one
    context ref.  From a player at rest, in a host that answers every
    call: the second call overwrites the ref with its own context; the
    two fade timers run; the stop timer of the first tone then stops
    the first oscillator but closes the second tone's context and
    nulls the ref; and the stop timer of the second tone throws a
    TypeError.  The first context is never closed and the second
    oscillator is never stopped. *)
Theorem overlapping_playbacks (throws : HostCall -> bool) (hertz : Q) (s : Tuner) :
  (forall c, throws c = false) -> at_rest s ->
  let context1 := nextObject (host s) in
  let oscillator1 := S context1 in
  let gainNode1 := S oscillator1 in
  let context2 := S gainNode1 in
  let oscillator2 := S context2 in
  let gainNode2 := S oscillator2 in
  let s2 := snd (playFrequency throws false hertz
                   (snd (playFrequency throws false hertz s))) in
  let s5 := timerFires throws 0 (timerFires throws 0 (timerFires throws 0 s2)) in
  playContextRef (refs s2) = Some context2 /\
  timers (host s5) = [(200%Z, StopTimer oscillator2)] /\
  playContextRef (refs s5) = None /\
  playing (display s5) = false /\
  hostCalls (host s5)
  = hostCalls (host s)
    ++ [SetGain gainNode1 0.4; OscillatorStart oscillator1 hertz;
        SetGain gainNode2 0.4; OscillatorStart oscillator2 hertz;
        SetGain gainNode1 0; SetGain gainNode2 0;
        OscillatorStop oscillator1; CloseContext context2] /\
  fst (runTimer throws (StopTimer oscillator2) s5)
  = Throw "TypeError: playContextRef.current is null" /\
  hostCalls (host (timerFires throws 0 s5)) = hostCalls (host s5).
Proof.
  intros Hhost [_ Ht] context1 oscillator1 gainNode1 context2 oscillator2 gainNode2
         s2 s5.
  assert (E2 : s2 = snd (playFrequency throws false hertz
                           (snd (playFrequency throws false hertz s))))
    by reflexivity.
  rewrite !(playFrequency_starts throws Hhost) in E2. cbn in E2.
  rewrite Ht in E2. cbn [app] in E2.
  assert (H2 : timers (host s2)
               = [(1000%Z, FadeTimer oscillator1 gainNode1);
                  (1000%Z, FadeTimer oscillator2 gainNode2)])
    by (rewrite E2; reflexivity).
  assert (Hc2 : playContextRef (refs s2) = Some context2)
    by (rewrite E2; reflexivity).
  set (s3 := timerFires throws 0 s2) in *.
  assert (E3 : s3 = timerFires throws 0 s2) by reflexivity.
  rewrite (timerFires_oldest throws s2 _ _ _ H2) in E3. cbn [runTimer] in E3.
  rewrite (fadeOut_answers throws Hhost _ _ _ context2) in E3 by exact Hc2.
  cbn in E3.
  assert (H3 : timers (host s3)
               = [(1000%Z, FadeTimer oscillator2 gainNode2);
                  (200%Z, StopTimer oscillator1)])
    by (rewrite E3; reflexivity).
  assert (Hc3 : playContextRef (refs s3) = Some context2)
    by (rewrite E3; exact Hc2).
  set (s4 := timerFires throws 0 s3) in *.
  assert (E4 : s4 = timerFires throws 0 s3) by reflexivity.
  rewrite (timerFires_oldest throws s3 _ _ _ H3) in E4. cbn [runTimer] in E4.
  rewrite (fadeOut_answers throws Hhost _ _ _ context2) in E4 by exact Hc3.
  cbn in E4.
  assert (H4 : timers (host s4)
               = [(200%Z, StopTimer oscillator1); (200%Z, StopTimer oscillator2)])
    by (rewrite E4; reflexivity).
  assert (Hc4 : playContextRef (refs s4) = Some context2)
    by (rewrite E4; exact Hc3).
  assert (E5 : s5 = timerFires throws 0 s4) by reflexivity.
  rewrite (timerFires_oldest throws s4 _ _ _ H4) in E5. cbn [runTimer] in E5.
  rewrite (stopTone_answers throws Hhost _ _ context2) in E5 by exact Hc4.
  cbn in E5.
  assert (H5 : timers (host s5) = [(200%Z, StopTimer oscillator2)])
    by (rewrite E5; reflexivity).
  assert (Hc5 : playContextRef (refs s5) = None) by (rewrite E5; reflexivity).
  split; [exact Hc2 |]. split; [exact H5 |]. split; [exact Hc5 |].
  split; [rewrite E5; reflexivity |].
  split.
  { rewrite E5. cbn. rewrite E4. cbn. rewrite E3. cbn. rewrite E2 at 1. cbn.
    rewrite <- !app_assoc. reflexivity. }
  split.
  - rewrite (timer_without_context throws _ s5 Hc5). reflexivity.
  - rewrite (timerFires_oldest throws s5 _ _ _ H5).
    rewrite timer_without_context by exact Hc5. reflexivity.
Qed.

Lemma overlapping_playbacks_witness :
  let s2 := snd (playFrequency never_throws false 82.41
                   (snd (playFrequency never_throws false 82.41 initial))) in
  let s5 := timerFires never_throws 0
              (timerFires never_throws 0 (timerFires never_throws 0 s2)) in
  at_rest initial /\
  hostCalls (host s5)
  = [SetGain 2 0.4; OscillatorStart 1 82.41; SetGain 5 0.4; OscillatorStart 4 82.41;
     SetGain 2 0; SetGain 5 0; OscillatorStop 1; CloseContext 3] /\
  fst (runTimer never_throws (StopTimer 4) s5)
  = Throw "TypeError: playContextRef.current is null".
Proof.
  intros s2 s5.
  assert (Hrest : at_rest initial) by (split; reflexivity).
  split; [exact Hrest |].
  destruct (overlapping_playbacks never_throws 82.41 initial (fun _ => eq_refl) Hrest)
    as (_ & _ & _ & _ & Hc & Hthrow & _).
  split; [exact Hc | exact Hthrow].
Defined.

(** X18. The loop and the player do not touch each other's state.  A
    frame, whatever the detector does, leaves [playing], the play
    context ref, the timers, the created objects and the log of audio
    calls as they were.  A play call and each of its timers, whatever
    the host answers, leave the chart, the note and cents shown, the
    smoothing state, the frame queue and the loop's refs as they
    were. *)
Theorem loop_and_player_are_independent (throws : HostCall -> bool) (s : Tuner) :
  (forall t, same_player_state s (animationFrame t s)) /\
  (forall captured hertz,
     same_loop_state s (snd (playFrequency throws captured hertz s))) /\
  (forall t, same_loop_state s (snd (runTimer throws t s))).
Proof.
  split; [| split].
  - intros t. unfold animationFrame, same_player_state.
    destruct (frameQueue (host s)) as [| id rest]; [repeat split |].
    destruct (analyserRef (refs s)) eqn:Ha;
      [destruct (pitchFinderRef (refs s)) eqn:Hp |].
    + assert (Hact : active (pop_frame s rest)) by (split; cbn; congruence).
      destruct (estimate t) as [| f | m] eqn:He.
      * rewrite (updatePitch_null _ t Hact He). repeat split.
      * rewrite (updatePitch_number _ t f Hact He). repeat split.
      * rewrite (updatePitch_throws _ t m Hact He). repeat split.
    + rewrite updatePitch_inactive by (right; exact Hp). repeat split.
    + rewrite updatePitch_inactive by (left; exact Ha). repeat split.
  - intros captured hertz. unfold same_loop_state.
    destruct s as [d r p h]. destruct h as [q nf no tm hc].
    destruct captured; [repeat split |].
    unfold playFrequency, bind, hostCall. cbn.
    destruct (throws (SetGain _ _)); [repeat split |]. cbn.
    destruct (throws (OscillatorStart _ _)); repeat split.
  - intros t. unfold same_loop_state.
    destruct s as [d r p h]. destruct r as [ctx src an fr sm pf pc ch].
    destruct h as [q nf no tm hc].
    destruct t as [o g | o].
    + unfold runTimer, fadeOut, currentTime_of_playContext, bind, gets, hostCall. cbn.
      destruct pc; [| repeat split]. cbn.
      destruct (throws (SetGain _ _)); repeat split.
    + unfold runTimer, stopTone, currentTime_of_playContext, bind, gets, hostCall. cbn.
      destruct pc; [| repeat split]. cbn.
      destruct (throws (OscillatorStop _)); [repeat split |]. cbn.
      destruct (throws (CloseContext _)); repeat split.
Qed.

(** ** The rendered view *)

Lemma string_length_append (a b : string) :
  String.length (a ++ b)%string = (String.length a + String.length b)%nat.
Proof. induction a as [| c a IH]; simpl; [reflexivity | rewrite IH; reflexivity]. Qed.

Lemma cents_suffix_is_not_in_tune (digits : string) :
  (digits ++ " cents")%string <> "In Tune".
Proof.
  intros H.
  destruct digits as [| c [| c' rest]].
  - discriminate H.
  - simpl in H. injection H as _ H. discriminate H.
  - apply (f_equal String.length) in H. rewrite string_length_append in H.
    simpl in H. lia.
Qed.

(** X20. The text under the indicator reads "In Tune" exactly when the
    cents shown are 0.  So after a tick without a pitch the component
    shows the placeholder note together with "In Tune" and no lit
    bar. *)
Theorem no_pitch_reads_in_tune (s : Tuner) :
  (cents_text (render s) = "In Tune" <-> cents (display s) = 0%Z) /\
  (forall t, running s -> estimate t = EstNull ->
     let v := render (animationFrame t s) in
     note_text v = "--" /\ cents_text v = "In Tune" /\
     forall b, In b (indicator v) -> ~ lit b).
Proof.
  split.
  - unfold render. cbn [cents_text].
    destruct (Z.eqb_spec (cents (display s)) 0) as [E | E].
    + tauto.
    + split; [| contradiction]. intros H.
      exfalso. exact (cents_suffix_is_not_in_tune _ H).
  - intros t Hrun He v. unfold v.
    rewrite (running_pending s t Hrun).
    rewrite (updatePitch_null _ t (active_pop_frame s [] (proj1 Hrun)) He).
    unfold render. cbn.
    split; [reflexivity |]. split; [reflexivity |].
    intros b Hb [Hc | Hc];
      repeat (destruct Hb as [<- | Hb]; [discriminate Hc |]); exact Hb.
Qed.

Lemma no_pitch_reads_in_tune_witness :
  let s := session [mkTick 0 (EstNumber 100)] in
  let v := render (animationFrame (mkTick 16 EstNull) s) in
  running s /\ cents_text (render s) = "-166 cents" /\
  note_text v = "--" /\ cents_text v = "In Tune".
Proof.
  intros s v.
  assert (Hrun : running s).
  { split; [split; discriminate | exists 1%nat; reflexivity]. }
  split; [exact Hrun |]. split; [vm_compute; reflexivity |].
  destruct (proj2 (no_pitch_reads_in_tune s) (mkTick 16 EstNull) Hrun eq_refl)
    as (Hn & Hc & _).
  split; [exact Hn | exact Hc].
Defined.

(** ** The order of binary64 *)

(** Case analysis on the comparisons of exponents and mantissas. *)
Ltac order_cases :=
  repeat match goal with
  | H : context [(?a ?= ?b)%Z] |- _ => destruct (Z.compare_spec a b)
  | |- context [(?a ?= ?b)%Z] => destruct (Z.compare_spec a b)
  | H : context [Pos.compare_cont Eq ?a ?b] |- _ =>
      let C := fresh in
      pose proof (Pos.compare_spec a b) as C;
      change (a ?= b)%positive with (Pos.compare_cont Eq a b) in C; destruct C
  | |- context [Pos.compare_cont Eq ?a ?b] =>
      let C := fresh in
      pose proof (Pos.compare_spec a b) as C;
      change (a ?= b)%positive with (Pos.compare_cont Eq a b) in C; destruct C
  end.

Section FloatOrder.

Lemma SFcompare_le_lt_trans (a b c : spec_float) :
  SFle a b -> SFcompare b c = Some Lt -> SFcompare a c = Some Lt.
Proof.
  unfold SFle.
  destruct a as [sa | sa | | sa ma ea], b as [sb | sb | | sb mb eb],
           c as [sc | sc | | sc mc ec];
    try destruct sa; try destruct sb; try destruct sc; cbn;
    intros [H | H] H'; try discriminate; try reflexivity;
    order_cases; subst; try discriminate; try reflexivity; try lia.
Qed.

Lemma SFcompare_lt_irrefl (a : spec_float) : SFcompare a a <> Some Lt.
Proof.
  destruct a as [sa | sa | | sa ma ea]; try destruct sa; cbn;
    try discriminate; order_cases; try discriminate; lia.
Qed.

Lemma ltb_leb_trans (m x d : float) :
  PrimFloat.leb m x = true -> PrimFloat.ltb x d = true -> PrimFloat.ltb m d = true.
Proof.
  rewrite leb_spec, !ltb_spec. unfold SFleb, SFltb. intros Hmx Hxd.
  rewrite (SFcompare_le_lt_trans (Prim2SF m) (Prim2SF x) (Prim2SF d)).
  - reflexivity.
  - unfold SFle. destruct (SFcompare (Prim2SF m) (Prim2SF x)) as [[| |] |];
      try discriminate; auto.
  - destruct (SFcompare (Prim2SF x) (Prim2SF d)) as [[| |] |];
      try discriminate; reflexivity.
Qed.

Lemma ltb_leb (x d : float) : PrimFloat.ltb x d = true -> PrimFloat.leb x d = true.
Proof.
  rewrite leb_spec, ltb_spec. unfold SFleb, SFltb.
  destruct (SFcompare (Prim2SF x) (Prim2SF d)) as [[| |] |]; try discriminate; reflexivity.
Qed.

Lemma ltb_irrefl (x : float) : PrimFloat.ltb x x = false.
Proof.
  rewrite ltb_spec. unfold SFltb.
  pose proof (SFcompare_lt_irrefl (Prim2SF x)) as H.
  destruct (SFcompare (Prim2SF x) (Prim2SF x)) as [[| |] |]; try reflexivity.
  now elim H.
Qed.

(** A difference that replaces [minDiff] is not above or equal to it. *)
Lemma leb_false_of_ltb (x d : float) :
  PrimFloat.ltb x d = true -> PrimFloat.leb d x = false.
Proof.
  intros H. destruct (PrimFloat.leb d x) eqn:E; [| reflexivity].
  pose proof (ltb_leb_trans d x d E H) as Hdd. rewrite ltb_irrefl in Hdd. discriminate.
Qed.

End FloatOrder.

(** ** The search in binary64 *)

Section Search64.

Variable f : float.

Lemma closest_step64 (st : PitchClass * float) (note : PitchClass) :
  Binary64.closest_step f st note
  = if PrimFloat.ltb (Binary64.diff f note) (snd st)
    then (note, Binary64.diff f note) else st.
Proof. reflexivity. Qed.

Lemma search_step64 (seen : list PitchClass) (st : PitchClass * float)
    (note : PitchClass) :
  search_invariant64 f seen st ->
  search_invariant64 f (seen ++ [note]) (Binary64.closest_step f st note).
Proof.
  intros [Hseen Hst]. rewrite closest_step64.
  destruct (PrimFloat.ltb (Binary64.diff f note) (snd st)) eqn:Hlt.
  - split; cbn [fst snd].
    + intros m Hm. apply in_app_or in Hm. destruct Hm as [Hm | [<- | []]].
      * destruct (PrimFloat.ltb (Binary64.diff f m) (Binary64.diff f note)) eqn:E;
          [| reflexivity].
        rewrite <- (Hseen m Hm). symmetry.
        apply ltb_leb_trans with (x := Binary64.diff f note);
          [apply ltb_leb; exact E | exact Hlt].
      * apply ltb_irrefl.
    + right. split; [reflexivity |].
      exists seen, []. split; [reflexivity |].
      intros m Hm.
      destruct (PrimFloat.leb (Binary64.diff f m) (Binary64.diff f note)) eqn:E;
        [| reflexivity].
      rewrite <- (Hseen m Hm). symmetry.
      apply ltb_leb_trans with (x := Binary64.diff f note); assumption.
  - split.
    + intros m Hm. apply in_app_or in Hm. destruct Hm as [Hm | [<- | []]].
      * apply Hseen, Hm.
      * exact Hlt.
    + destruct Hst as [Hinf | (Hd & before & after & Hkeys & Hbefore)].
      * left. exact Hinf.
      * right. split; [exact Hd |].
        exists before, (after ++ [note]). split; [| exact Hbefore].
        rewrite Hkeys, <- app_assoc. reflexivity.
Qed.

Lemma search_fold64 (keys seen : list PitchClass) (st : PitchClass * float) :
  search_invariant64 f seen st ->
  search_invariant64 f (seen ++ keys) (fold_left (Binary64.closest_step f) keys st).
Proof.
  revert seen st. induction keys as [| note keys IH]; intros seen st H.
  - rewrite app_nil_r. exact H.
  - cbn [fold_left].
    replace (seen ++ note :: keys) with ((seen ++ [note]) ++ keys)
      by (rewrite <- app_assoc; reflexivity).
    apply IH, search_step64, H.
Qed.

Lemma search_invariant64_end :
  search_invariant64 f Object_keys (Binary64.search f).
Proof.
  apply (search_fold64 Object_keys [] (E2, infinity)).
  split; [intros m [] |]. left. split; reflexivity.
Qed.

(** A value that is not below [Infinity] has nothing below it that is
    not below [Infinity] itself. *)
Lemma nothing_below_infinity (a m : float) :
  PrimFloat.ltb a infinity = false -> PrimFloat.ltb m infinity = false ->
  PrimFloat.ltb m a = false.
Proof.
  rewrite !ltb_spec. unfold SFltb.
  change (Prim2SF infinity) with (S754_infinity false).
  destruct (Prim2SF a) as [sa | sa | | sa ma ea], (Prim2SF m) as [sm | sm | | sm mm em];
    try destruct sa; try destruct sm; cbn; congruence.
Qed.

End Search64.

Lemma In_Object_keys (m : PitchClass) : In m Object_keys.
Proof. destruct m; cbn; tauto. Qed.

(** The key found has the least computed difference, and it is the
    first such key. *)
Lemma closestNote64_first_minimum (f : float) :
  exists before after,
    Object_keys = before ++ Binary64.closestNote f :: after /\
    (forall m, PrimFloat.ltb (Binary64.diff f m)
                             (Binary64.diff f (Binary64.closestNote f)) = false) /\
    (forall m, In m before ->
       PrimFloat.leb (Binary64.diff f m)
                     (Binary64.diff f (Binary64.closestNote f)) = false).
Proof.
  destruct (search_invariant64_end f) as [Hseen Hst].
  unfold Binary64.closestNote.
  destruct Hst as [[Hinf HE2] | (Hd & before & after & Hkeys & Hbefore)].
  - rewrite HE2. exists [], [A2; D3; G3; B3; E4].
    split; [reflexivity |]. split; [| intros m []].
    intros m. rewrite Hinf in Hseen.
    apply nothing_below_infinity; apply Hseen, In_Object_keys.
  - exists before, after. split; [exact Hkeys |]. split; [| exact Hbefore].
    intros m. rewrite <- Hd. apply Hseen, In_Object_keys.
Qed.

Lemma getNoteAndCents64_pos (Math_log2 : float -> float) (f : float) :
  PrimFloat.ltb 0 f = true ->
  Binary64.getNoteAndCents Math_log2 f
  = Binary64.mkTuningResult
      (key_string (Binary64.closestNote f))
      (Binary64.Math_floor
         (PrimFloat.mul 1200
            (Math_log2 (PrimFloat.div f
               (Binary64.TUNING_FREQUENCIES (Binary64.closestNote f)))))).
Proof.
  intros Hf. unfold Binary64.getNoteAndCents.
  rewrite (leb_false_of_ltb _ _ Hf). reflexivity.
Qed.

(** C1, as the program has it.  For every frequency above zero the note
    returned by [getNoteAndCents] is the key whose difference
    [|f - reference|], as binary64 computes it, is least: no key has a
    computed difference below it; and it is the first such key in the
    order of [Object.keys]: the computed difference of every key
    enumerated before it is not below or equal to it. *)
Theorem closest_reference_binary64 (Math_log2 : float -> float) (f : float) :
  PrimFloat.ltb 0 f = true ->
  exists n before after,
    Binary64.tr_note (Binary64.getNoteAndCents Math_log2 f) = key_string n /\
    Object_keys = before ++ n :: after /\
    (forall m, PrimFloat.ltb (Binary64.diff f m) (Binary64.diff f n) = false) /\
    (forall m, In m before ->
       PrimFloat.leb (Binary64.diff f m) (Binary64.diff f n) = false).
Proof.
  intros Hf. exists (Binary64.closestNote f).
  destruct (closestNote64_first_minimum f) as (before & after & H).
  exists before, after.
  rewrite (getNoteAndCents64_pos Math_log2 f Hf). cbn [Binary64.tr_note].
  split; [reflexivity | exact H].
Qed.

(** At 96.205 Hz, between E2 and A2, the key is E2. *)
Lemma closest_reference_binary64_witness :
  PrimFloat.ltb 0 96.205 = true /\
  exists n before after,
    Binary64.tr_note (Binary64.getNoteAndCents Binary64.log2_series 96.205)
    = key_string n /\
    Object_keys = before ++ n :: after /\
    (forall m, PrimFloat.ltb (Binary64.diff 96.205 m) (Binary64.diff 96.205 n) = false) /\
    (forall m, In m before ->
       PrimFloat.leb (Binary64.diff 96.205 m) (Binary64.diff 96.205 n) = false).
Proof.
  split; [reflexivity |].
  apply (closest_reference_binary64 Binary64.log2_series 96.205). reflexivity.
Defined.

(** C1 fails far above the table.  At 1e19 Hz, which is a double, the
    six computed differences are all 1e19 and the search keeps the first
    key, E2, although E4 is nearer: the differences differ by less than
    the rounding of the subtraction. *)
Lemma far_frequency_goes_to_first_key :
  PrimFloat.ltb 0 1e19 = true /\
  Binary64.tr_note (Binary64.getNoteAndCents Binary64.log2_series 1e19) = "E2" /\
  Binary64.closestNote 1e19 = E2 /\
  Binary64.diff 1e19 E2 = Binary64.diff 1e19 E4 /\
  Binary64.value 1e19 == 10000000000000000000 /\
  Qabs (Binary64.value 1e19 - Binary64.value (Binary64.TUNING_FREQUENCIES E4))
  < Qabs (Binary64.value 1e19 - Binary64.value (Binary64.TUNING_FREQUENCIES E2)).
Proof. repeat split; vm_compute; reflexivity. Qed.

Example far_frequency_1_5e18 :
  Binary64.closestNote 1.5e18 = D3 /\ Binary64.closestNote 1000 = E4 /\
  Binary64.closestNote infinity = E2.
Proof. repeat split; vm_compute; reflexivity. Qed.

(** ** [Math.floor] around zero *)

Section Floor64.



Lemma SFeqb_true (a b : spec_float) :
  SFeqb a b = true <-> SFcompare a b = Some Eq.
Proof.
  unfold SFeqb. destruct (SFcompare a b) as [[| |] |]; split; congruence.
Qed.










End Floor64.

(** ** Integers as doubles *)

Section OfZ.







End OfZ.

Section FloorSign.




End FloorSign.

(** ** The classifier and the smoothing in binary64 *)



(** C3. On a tick with an estimate [f]: if the stored previous value
    equals 0 the smoothed value is [f], otherwise it is
    [smoothing * previous + (1 - smoothing) * f], in the arithmetic of
    the program; the smoothed value is what the tick stores and what it
    appends to the chart, and the coefficient stays what it was, 0.7.
    With previous 100 and estimate 200 the smoothed value is exactly
    130. *)
Theorem smoothing_filter_binary64 (Math_log2 : float -> float) (now : Z)
    (f : float) (s : Binary64.Numbers) :
  Binary64.smoothingRef s = 0.7%float ->
  let s' := Binary64.updatePitch Math_log2 now (Some f) s in
  let smoothed := Binary64.previousPitch s' in
  (PrimFloat.eqb (Binary64.previousPitch s) 0 = true -> smoothed = f) /\
  (PrimFloat.eqb (Binary64.previousPitch s) 0 = false ->
     smoothed = 0.7 * Binary64.previousPitch s + (1 - 0.7) * f)%float /\
  Binary64.chartDataRef s'
  = Binary64.chartDataRef s
    ++ [Binary64.mkDataPoint now smoothed
          (Binary64.tr_note (Binary64.getNoteAndCents Math_log2 smoothed))] /\
  Binary64.smoothingRef s' = 0.7%float /\
  (Binary64.previousPitch s = 100%float -> f = 200%float -> smoothed = 130%float).
Proof.
  intros Halpha s' smoothed. subst smoothed s'.
  unfold Binary64.updatePitch. cbn [Binary64.previousPitch Binary64.chartDataRef
                                     Binary64.smoothingRef].
  rewrite Halpha.
  split; [| split; [| split; [| split]]].
  - intros H0. rewrite H0. reflexivity.
  - intros H0. rewrite H0. reflexivity.
  - reflexivity.
  - reflexivity.
  - intros H100 H200. rewrite H100, H200. vm_compute. reflexivity.
Qed.

(** After a first tick at 100 Hz, a tick at 200 Hz stores 130. *)
Lemma smoothing_filter_binary64_witness :
  let s := Binary64.updatePitch Binary64.log2_series 0 (Some 100%float)
             Binary64.initial in
  let s' := Binary64.updatePitch Binary64.log2_series 16 (Some 200%float) s in
  Binary64.smoothingRef s = 0.7%float /\
  Binary64.previousPitch s = 100%float /\
  Binary64.previousPitch s' = 130%float /\
  Binary64.smoothingRef s' = 0.7%float.
Proof.
  intros s s'.
  assert (Halpha : Binary64.smoothingRef s = 0.7%float) by reflexivity.
  assert (H100 : Binary64.previousPitch s = 100%float) by reflexivity.
  destruct (smoothing_filter_binary64 Binary64.log2_series 16 200%float s Halpha)
    as (_ & _ & _ & Hkeep & H130).
  split; [exact Halpha |]. split; [exact H100 |].
  split; [apply H130; [exact H100 | reflexivity] | exact Hkeep].
Defined.

(** The rounding shows on other inputs: with previous 82.41 and
    estimate 82.0 the program stores 82.286999999999992, below the
    82.287 of exact arithmetic. *)
Example smoothing_rounds :
  (0.7 * 82.41 + (1 - 0.7) * 82.0 = 82.286999999999992)%float /\
  Binary64.value (0.7 * 82.41 + (1 - 0.7) * 82.0)%float < 82.287.
Proof. split; vm_compute; reflexivity. Qed.

(** ** The band of zero cents in binary64 *)




(** ** Where binary64 departs from exact arithmetic *)


